(** * registry: listing and looking up images of a container registry

    A shallow embedding of [registry/registry.go]: the two entry points
    [GetRepository] and [GetImage], the fan-out/gather of
    [tagsToRepository] with its goroutines and its buffered channel, and
    the comparator of [byCreatedDesc].

    The goroutines are modelled by an executable interleaving semantics:
    a state holds the program point of the calling goroutine, the frames of
    the spawned goroutines and the contents of the channel; a schedule
    (a list of choices "who moves next") drives it.  Every call the code
    makes on a collaborator is appended to a trace. *)

From Stdlib Require Import ZArith String Ascii.
From stdpp Require Import list.

(** ** Data *)

(** Go's [error], identified by the message of [Error()]; [nil] is [None]. *)
Definition error := string.

(** Modelled from the spec: the type [Repository] is declared outside
    [registry.go]; it identifies a registry host, a namespace and a name.
    The code only calls [Host()] on it and hands it to the [Remote]. *)
Record Repository := {
  Host : string;
  Namespace : string;
  Name : string
}.

(** An instant of [time.Time], as a count of nanoseconds. *)
Definition Time := Z.
Definition Time_Equal (t u : Time) : bool := (t =? u)%Z.
Definition Time_After (t u : Time) : bool := (u <? t)%Z.

(** Modelled from the spec: the type [Image] is declared outside
    [registry.go]; it carries a full name (what [String()] prints) and an
    optional creation timestamp ([CreatedAt *time.Time], [nil] is
    [None]). *)
Record Image := {
  FullName : string;
  CreatedAt : option Time
}.

Definition Image_String (i : Image) : string := FullName i.

(** The zero value [Image{}]. *)
Definition zeroImage : Image := {| FullName := EmptyString; CreatedAt := None |}.

(** [type result struct { image Image; err error }] *)
Record result := {
  image : Image;
  err : option error
}.

(** The [Remote] interface: [Tags] and [Manifest] answer with a Go pair
    (value, error), the answer depending on the arguments only; [Cancel]
    returns nothing and only shows in the trace. *)
Record Remote := {
  Tags : Repository -> list string * option error;
  Manifest : Repository -> string -> Image * option error
}.

Record RemoteClientFactory := {
  CreateFor : string -> Remote * option error
}.

(** Calls on the collaborators, and receptions from the channel. *)
Inductive event :=
| EvCreateFor (host : string)
| EvTags (r : Repository)
| EvManifest (r : Repository) (t : string)
| EvLog (e : error)
| EvCancel
| EvRecv (res : result).

Definition is_cancel (e : event) : bool :=
  match e with EvCancel => true | _ => false end.
Definition is_tags (e : event) : bool :=
  match e with EvTags _ => true | _ => false end.
Definition is_manifest (e : event) : bool :=
  match e with EvManifest _ _ => true | _ => false end.

(** The tags of the manifest fetches issued, in the order of issue. *)
Definition manifest_calls (tr : list event) : list string :=
  omap (fun e => match e with EvManifest _ t => Some t | _ => None end) tr.

(** The results taken from the channel, in the order of reception. *)
Definition received (tr : list event) : list result :=
  omap (fun e => match e with EvRecv r => Some r | _ => None end) tr.

Definition cancels (tr : list event) : nat := length (filter (fun e => is_cancel e = true) tr).

(** ** The ordering policy, [byCreatedDesc] *)

Definition less (a b : Image) : bool :=
  match CreatedAt a with
  | None => true
  | Some ta =>
    match CreatedAt b with
    | None => false
    | Some tb =>
      if Time_Equal ta tb
      then String.ltb (Image_String a) (Image_String b)
      else Time_After ta tb
    end
  end.

(** [Less(i, j)]; an index out of range panics ([None]). *)
Definition Less (images : list Image) (i j : nat) : option bool :=
  match images !! i, images !! j with
  | Some a, Some b => Some (less a b)
  | _, _ => None
  end.

Definition Len (images : list Image) : nat := length images.

Definition Swap (images : list Image) (i j : nat) : option (list Image) :=
  match images !! i, images !! j with
  | Some a, Some b => Some (<[i := b]> (<[j := a]> images))
  | _, _ => None
  end.

(** Byte-wise lexicographic order on strings, stated as a relation. *)
Inductive lex_lt : string -> string -> Prop :=
| lex_lt_nil c s : lex_lt EmptyString (String c s)
| lex_lt_head c d s s' : (nat_of_ascii c < nat_of_ascii d)%nat -> lex_lt (String c s) (String d s')
| lex_lt_tail c s s' : lex_lt s s' -> lex_lt (String c s) (String c s').

(** ** Goroutines and the channel *)

(** The frame of one goroutine [go func(t string) {...}(tag)]. *)
Inductive goroutine :=
| GCall (t : string)                          (* spawned, [Manifest] not yet called *)
| GWait (t : string)                          (* [remote.Manifest(repository, t)] in flight *)
| GLog (t : string) (im : Image) (e : error)  (* [err != nil]: the log line is next *)
| GSend (t : string) (r : result)             (* [fetched <- result{image, err}] is next *)
| GExit (t : string) (r : result).            (* has sent and returned *)

(** The program point of the caller inside [tagsToRepository]. *)
Inductive mainpc :=
| PSpawn (rest : list string)                 (* the [range tags] loop *)
| PGather (i : nat) (images : list Image)     (* the gather loop, before its test *)
| PDefer (ret : option (list Image) * option error) (* [return] evaluated, deferred call pending *)
| PDone (ret : option (list Image) * option error). (* returned to the caller *)

Record state := {
  main : mainpc;
  gos : list goroutine;
  fetched : list result;
  trace : list event
}.

(** Who moves next. *)
Inductive choice :=
| Main
| Go (k : nat).

Definition returned (st : state) : option (option (list Image) * option error) :=
  match main st with
  | PDone ret => Some ret
  | _ => None
  end.

(** A fetch that was dispatched and whose result the caller has not
    (yet) been handed by the goroutine: the goroutine has not sent. *)
Definition unsent (g : goroutine) : bool :=
  match g with
  | GExit _ _ => false
  | _ => true
  end.

(** A [Manifest] call issued and not yet answered. *)
Definition in_flight (g : goroutine) : bool :=
  match g with
  | GWait _ => true
  | _ => false
  end.

(** ** The code *)

Section Code.

(** Collaborators declared outside [registry.go]: the metrics sink, the
    instrumenting decorator and the library's [sort.Sort]. *)
Context {Metrics : Type}.
Variable NewInstrumentedRemote : Remote -> Metrics -> Remote.
Variable sort_Sort : (Image -> Image -> bool) -> list Image -> list Image.

Record registry := {
  factory : RemoteClientFactory;
  reg_Metrics : Metrics
}.

(** [newRemote]: ask the factory for the host's client and decorate it;
    on an error the factory's pair is returned as it is. *)
Definition newRemote (reg : registry) (img : Repository)
  : Remote * option error * list event :=
  let '(rem, err) := CreateFor (factory reg) (Host img) in
  match err with
  | Some e => (rem, Some e, [EvCreateFor (Host img)])
  | None => (NewInstrumentedRemote rem (reg_Metrics reg), None, [EvCreateFor (Host img)])
  end.

(** [GetImage]: the bare [return] on a factory error yields the zero
    [Image] and [err]; otherwise the pair of [rem.Manifest(img, tag)]. *)
Definition GetImage (reg : registry) (img : Repository) (tag : string)
  : Image * option error * list event :=
  let '(rem, err, tr) := newRemote reg img in
  match err with
  | Some e => (zeroImage, Some e, tr)
  | None =>
    let '(im, err) := Manifest rem img tag in
    (im, err, tr ++ [EvManifest img tag])
  end.

(** One step of the caller. [cap] is [cap(fetched)], that is [len(tags)].
    The receive [<-fetched] is not enabled on an empty channel.  The
    write [images[i] = res.image] happens under [i < cap(fetched)], the
    length of [images], so it never goes out of range. *)
Definition step_main (cap : nat) (st : state) : option state :=
  match main st with
  | PSpawn (t :: rest) =>
    Some {| main := PSpawn rest; gos := gos st ++ [GCall t];
            fetched := fetched st; trace := trace st |}
  | PSpawn [] =>
    Some {| main := PGather 0 (replicate cap zeroImage); gos := gos st;
            fetched := fetched st; trace := trace st |}
  | PGather i images =>
    if decide (i < cap) then
      match fetched st with
      | [] => None
      | res :: q =>
        match err res with
        | Some e =>
          Some {| main := PDefer (None, Some e); gos := gos st;
                  fetched := q; trace := trace st ++ [EvRecv res] |}
        | None =>
          Some {| main := PGather (S i) (<[i := image res]> images); gos := gos st;
                  fetched := q; trace := trace st ++ [EvRecv res] |}
        end
      end
    else
      Some {| main := PDefer (Some (sort_Sort less images), None); gos := gos st;
              fetched := fetched st; trace := trace st |}
  | PDefer ret =>
    Some {| main := PDone ret; gos := gos st;
            fetched := fetched st; trace := trace st ++ [EvCancel] |}
  | PDone _ => None
  end.

(** One step of goroutine [k]: the call of [Manifest], its answer, the
    log line on an error, the send.  A send is not enabled on a full
    channel. *)
Definition step_go (remote : Remote) (repository : Repository) (cap : nat)
           (k : nat) (st : state) : option state :=
  match gos st !! k with
  | None => None
  | Some (GCall t) =>
    Some {| main := main st; gos := <[k := GWait t]> (gos st);
            fetched := fetched st; trace := trace st ++ [EvManifest repository t] |}
  | Some (GWait t) =>
    let '(im, e) := Manifest remote repository t in
    match e with
    | Some x =>
      Some {| main := main st; gos := <[k := GLog t im x]> (gos st);
              fetched := fetched st; trace := trace st |}
    | None =>
      Some {| main := main st; gos := <[k := GSend t {| image := im; err := None |}]> (gos st);
              fetched := fetched st; trace := trace st |}
    end
  | Some (GLog t im x) =>
    Some {| main := main st; gos := <[k := GSend t {| image := im; err := Some x |}]> (gos st);
            fetched := fetched st; trace := trace st ++ [EvLog x] |}
  | Some (GSend t r) =>
    if decide (length (fetched st) < cap) then
      Some {| main := main st; gos := <[k := GExit t r]> (gos st);
              fetched := fetched st ++ [r]; trace := trace st |}
    else None
  | Some (GExit _ _) => None
  end.

Definition step (remote : Remote) (repository : Repository) (cap : nat)
           (c : choice) (st : state) : option state :=
  match c with
  | Main => step_main cap st
  | Go k => step_go remote repository cap k st
  end.

Fixpoint run (remote : Remote) (repository : Repository) (cap : nat)
         (sched : list choice) (st : state) : option state :=
  match sched with
  | [] => Some st
  | c :: sched' =>
    match step remote repository cap c st with
    | Some st' => run remote repository cap sched' st'
    | None => None
    end
  end.

(** Entry into [tagsToRepository]: the deferred [Cancel] is registered,
    the channel is made, nothing is spawned yet. *)
Definition enter (tr : list event) (tags : list string) : state :=
  {| main := PSpawn tags; gos := []; fetched := []; trace := tr |}.

Definition tagsToRepository (remote : Remote) (repository : Repository)
           (tags : list string) (tr : list event) (sched : list choice) : option state :=
  run remote repository (length tags) sched (enter tr tags).

(** The state in which the caller has returned [ret] without having
    spawned anything. *)
Definition leave (tr : list event) (ret : option (list Image) * option error) : state :=
  {| main := PDone ret; gos := []; fetched := []; trace := tr |}.

(** [GetRepository]: the code before [tagsToRepository] runs with no
    goroutine around, so a failure of the factory or of [Tags] leads to
    the returned state whatever the schedule; [None] is a schedule that
    asks a blocked or finished party to move. *)
Definition GetRepository (reg : registry) (img : Repository) (sched : list choice)
  : option state :=
  let '(rem, err, tr) := newRemote reg img in
  match err with
  | Some e => Some (leave tr (None, Some e))
  | None =>
    let '(tags, err) := Tags rem img in
    match err with
    | Some e => Some (leave (tr ++ [EvTags img; EvCancel]) (None, Some e))
    | None => tagsToRepository rem img tags (tr ++ [EvTags img]) sched
    end
  end.

End Code.

(** ** Concrete collaborators, for running the code *)

(** The insertion sort that [sort.Sort] runs on short slices: each new
    element sinks towards the front while [Less(j, j-1)] holds.  The
    sorted prefix is kept reversed. *)
Fixpoint sink {A} (lt : A -> A -> bool) (x : A) (rprefix : list A) : list A :=
  match rprefix with
  | [] => [x]
  | y :: r => if lt x y then y :: sink lt x r else x :: y :: r
  end.

Definition insertionSort {A} (lt : A -> A -> bool) (l : list A) : list A :=
  rev (foldl (fun acc x => sink lt x acc) [] l).

(** A decorator that forwards every call. *)
Definition plainInstrumented (rem : Remote) (m : unit) : Remote := rem.

Definition GetRepository0 := GetRepository plainInstrumented (@insertionSort Image).
Definition GetImage0 := GetImage plainInstrumented.

Definition mkImage (n : string) (t : option Z) : Image :=
  {| FullName := n; CreatedAt := t |}.

Definition helloworld : Repository :=
  {| Host := "index.docker.io"; Namespace := "library"; Name := "helloworld" |}.

(** A remote with two tags whose first manifest cannot be fetched. *)
Definition remote_ab : Remote := {|
  Tags := fun _ => (["a"; "b"]%string, None);
  Manifest := fun _ t =>
    if String.eqb t "a" then (zeroImage, Some "boom"%string)
    else (mkImage t (Some 5%Z), None)
|}.

(** A remote with three tags, all of them fetchable. *)
Definition remote_ok : Remote := {|
  Tags := fun _ => (["v1"; "v2"; "v3"]%string, None);
  Manifest := fun _ t =>
    (mkImage t (if String.eqb t "v2" then None else Some (Z.of_nat (String.length t))), None)
|}.

(** A remote whose two manifests fail with different errors. *)
Definition remote_bad2 : Remote := {|
  Tags := fun _ => (["a"; "b"]%string, None);
  Manifest := fun _ t => (zeroImage, Some ("no " ++ t)%string)
|}.

(** A remote that cannot list its tags. *)
Definition remote_notags : Remote := {|
  Tags := fun _ => ([], Some "tags unavailable"%string);
  Manifest := fun _ t => (mkImage t None, None)
|}.

(** A remote of a repository without tags. *)
Definition remote_empty : Remote := {|
  Tags := fun _ => ([], None);
  Manifest := fun _ t => (mkImage t None, None)
|}.

Definition registry_of (rem : Remote) : registry (Metrics := unit) :=
  {| factory := {| CreateFor := fun _ => (rem, None) |}; reg_Metrics := tt |}.

(** A registry whose factory cannot produce a client. *)
Definition registry_down : registry (Metrics := unit) :=
  {| factory := {| CreateFor := fun _ => (remote_empty, Some "no such host"%string) |};
     reg_Metrics := tt |}.

(** The caller runs alone until it blocks, goroutine 0 runs to its end,
    then the caller again. *)
Definition sched_first_only : list choice :=
  [Main; Main; Main; Go 0; Go 0; Go 0; Go 0; Main; Main].

(** As [sched_first_only], but goroutine 1 has issued its call before
    goroutine 0 reports. *)
Definition sched_second_in_flight : list choice :=
  [Main; Main; Main; Go 1; Go 0; Go 0; Go 0; Go 0; Main; Main].

(** All goroutines of [remote_ok] in reverse order, then the caller. *)
Definition sched_reverse3 : list choice :=
  [Main; Main; Main; Main;
   Go 2; Go 2; Go 2; Go 1; Go 1; Go 1; Go 0; Go 0; Go 0;
   Main; Main; Main; Main; Main].

(** Goroutine 1 of a two-tag listing reports before goroutine 0. *)
Definition sched_second_first : list choice :=
  [Main; Main; Main; Go 1; Go 0; Go 1; Go 1; Go 1; Go 0; Go 0; Go 0; Main; Main].

(** ** What the executions keep invariant *)

(** The answer of the remote for a tag, as the goroutine packs it. *)
Definition fetch_result (remote : Remote) (repository : Repository) (t : string) : result :=
  let '(im, e) := Manifest remote repository t in {| image := im; err := e |}.

Definition gtag (g : goroutine) : string :=
  match g with
  | GCall t | GWait t | GLog t _ _ | GSend t _ | GExit t _ => t
  end.

(** The locals of a goroutine are what the remote answered for its tag. *)
Definition g_ok (remote : Remote) (repository : Repository) (g : goroutine) : Prop :=
  match g with
  | GCall _ | GWait _ => True
  | GLog t im e => Manifest remote repository t = (im, Some e)
  | GSend t r | GExit t r => r = fetch_result remote repository t
  end.

Definition called_tag (g : goroutine) : list string :=
  match g with
  | GCall _ => []
  | _ => [gtag g]
  end.

Definition sent (g : goroutine) : list result :=
  match g with
  | GExit _ r => [r]
  | _ => []
  end.

Definition is_ok (r : result) : Prop := err r = None.

(** The first failure among results, if any. *)
Fixpoint first_error (rs : list result) : option error :=
  match rs with
  | [] => None
  | r :: rs' => match err r with Some e => Some e | None => first_error rs' end
  end.

(** Steps a goroutine, the caller, the whole state can still take. *)
Definition go_fuel (g : goroutine) : nat :=
  match g with
  | GCall _ => 4
  | GWait _ => 3
  | GLog _ _ _ => 2
  | GSend _ _ => 1
  | GExit _ _ => 0
  end.

Definition main_fuel (cap : nat) (pc : mainpc) : nat :=
  match pc with
  | PSpawn rest => 5 * length rest + cap + 3
  | PGather i _ => (cap - i) + 2
  | PDefer _ => 1
  | PDone _ => 0
  end.

Definition fuel (cap : nat) (st : state) : nat :=
  main_fuel cap (main st) + sum_list_with go_fuel (gos st).

Section Invariant.

Variable sort_Sort : (Image -> Image -> bool) -> list Image -> list Image.
Variable remote : Remote.
Variable repository : Repository.
Variable tags : list string.
(** The trace on entry into [tagsToRepository]. *)
Variable tr0 : list event.

(** How a value returned by the gather loop relates to the results
    [rs] it has taken from the channel. *)
Definition outcome (ret : option (list Image) * option error) (rs : list result) : Prop :=
  match ret with
  | (None, Some e) =>
    exists oks r, rs = oks ++ [r] /\ Forall is_ok oks /\ err r = Some e /\ length oks < length tags
  | (Some images, None) =>
    Forall is_ok rs /\ length rs = length tags /\ images = sort_Sort less (map image rs)
  | _ => False
  end.

(** The caller's program point against the events [tr] since entry. *)
Definition main_inv (pc : mainpc) (tr : list event) : Prop :=
  match pc with
  | PSpawn _ => received tr = [] /\ cancels tr = 0
  | PGather i images =>
    Forall is_ok (received tr) /\ length (received tr) = i /\ i <= length tags /\
    length images = length tags /\ take i images = map image (received tr) /\
    cancels tr = 0
  | PDefer ret => outcome ret (received tr) /\ cancels tr = 0
  | PDone ret =>
    exists tr1 tr2, tr = tr1 ++ EvCancel :: tr2 /\ outcome ret (received tr1) /\
      cancels tr1 = 0 /\ received tr2 = [] /\ cancels tr2 = 0
  end.

(** Goroutines exist for the tags ranged over so far, in order. *)
Definition spawned (st : state) : Prop :=
  match main st with
  | PSpawn rest => map gtag (gos st) ++ rest = tags
  | _ => map gtag (gos st) = tags
  end.

Record Inv (st : state) (tr : list event) : Prop := {
  inv_trace : trace st = tr0 ++ tr;
  inv_main : main_inv (main st) tr;
  inv_calls : manifest_calls tr ≡ₚ flat_map called_tag (gos st);
  inv_chan : received tr ++ fetched st ≡ₚ flat_map sent (gos st);
  inv_gos : Forall (g_ok remote repository) (gos st);
  inv_tags : spawned st
}.

End Invariant.

(** ** The logger and the answers of the remote *)

(** The errors handed to [reg.Logger.Log], in order. *)
Definition logged (tr : list event) : list error :=
  omap (fun e => match e with EvLog x => Some x | _ => None end) tr.

(** The log line a goroutine has written so far: the one for its error,
    once it is past the [if err != nil] block. *)
Definition logged_by (g : goroutine) : list error :=
  match g with
  | GSend _ r | GExit _ r =>
    match err r with
    | Some e => [e]
    | None => []
    end
  | _ => []
  end.

(** The errors the remote answers for the tags, one for each failing
    occurrence of a tag. *)
Definition tag_errors (remote : Remote) (repository : Repository)
           (tags : list string) : list error :=
  omap (fun t => snd (Manifest remote repository t)) tags.

(** * Proofs *)

(** ** Projections of a trace *)

Lemma manifest_calls_app tr tr' :
  manifest_calls (tr ++ tr') = manifest_calls tr ++ manifest_calls tr'.
Proof. apply omap_app. Qed.

Lemma received_app tr tr' : received (tr ++ tr') = received tr ++ received tr'.
Proof. apply omap_app. Qed.

Lemma cancels_app tr tr' : cancels (tr ++ tr') = cancels tr + cancels tr'.
Proof. unfold cancels. by rewrite filter_app, length_app. Qed.

Lemma cancels_cons e tr :
  cancels (e :: tr) = (if is_cancel e then 1 else 0) + cancels tr.
Proof.
  unfold cancels. rewrite filter_cons.
  destruct (is_cancel e); case_decide; simpl; congruence.
Qed.

(** ** Goroutine bookkeeping under an update of one frame *)

Lemma flat_map_insert_same {A B} (f : A -> list B) (l : list A) k g g' :
  l !! k = Some g -> f g' = f g -> flat_map f (<[k := g']> l) = flat_map f l.
Proof.
  revert k. induction l as [|a l IH]; intros [|k] Hk Hf; simplify_eq/=; auto.
  - by rewrite Hf.
  - f_equal. by apply IH.
Qed.

Lemma flat_map_insert_new {A B} (f : A -> list B) (l : list A) k g g' :
  l !! k = Some g -> f g = [] -> flat_map f (<[k := g']> l) ≡ₚ flat_map f l ++ f g'.
Proof.
  revert k. induction l as [|a l IH]; intros [|k] Hk Hf; simplify_eq/=.
  - rewrite Hf. simpl. by rewrite Permutation_app_comm.
  - rewrite (IH k Hk Hf). by rewrite app_assoc.
Qed.

Lemma map_gtag_insert (l : list goroutine) k g g' :
  l !! k = Some g -> gtag g' = gtag g -> map gtag (<[k := g']> l) = map gtag l.
Proof.
  revert k. induction l as [|a l IH]; intros [|k] Hk Hf; simplify_eq/=; auto.
  - by rewrite Hf.
  - f_equal. by apply IH.
Qed.

Lemma sum_fuel_insert (l : list goroutine) k g g' :
  l !! k = Some g ->
  sum_list_with go_fuel (<[k := g']> l) + go_fuel g = sum_list_with go_fuel l + go_fuel g'.
Proof.
  revert k. induction l as [|a l IH]; intros [|k] Hk; simplify_eq/=; [lia|].
  specialize (IH k Hk). lia.
Qed.

Lemma sent_length_le (l : list goroutine) : length (flat_map sent l) <= length l.
Proof.
  induction l as [|g l IH]; simpl; [lia|].
  rewrite length_app. destruct g; simpl; lia.
Qed.

(** When fewer results were sent than goroutines exist, one of them has
    yet to send. *)
Lemma unsent_exists (l : list goroutine) :
  length (flat_map sent l) < length l ->
  exists k g, l !! k = Some g /\ unsent g = true.
Proof.
  induction l as [|g l IH]; simpl; [lia|].
  rewrite length_app. intros Hlt.
  destruct (unsent g) eqn:Hu.
  - exists 0, g. done.
  - destruct g; try discriminate. simpl in Hlt.
    destruct IH as (k & g' & Hk & Hg'); [lia|].
    exists (S k), g'. done.
Qed.

(** When as many results were sent as goroutines exist, all have sent,
    and all have called [Manifest]. *)
Lemma all_sent (l : list goroutine) :
  length l <= length (flat_map sent l) ->
  Forall (fun g => unsent g = false) l.
Proof.
  induction l as [|g l IH]; simpl; [constructor|].
  rewrite length_app. intros Hle. pose proof (sent_length_le l).
  destruct g; simpl in *; try lia.
  constructor; [done|]. apply IH. lia.
Qed.

Lemma all_sent_called (l : list goroutine) :
  Forall (fun g => unsent g = false) l -> flat_map called_tag l = map gtag l.
Proof.
  induction 1 as [|g l Hg _ IH]; simpl; [done|].
  destruct g; try discriminate. simpl. by rewrite IH.
Qed.

Lemma all_sent_results remote repository (l : list goroutine) :
  Forall (fun g => unsent g = false) l ->
  Forall (g_ok remote repository) l ->
  flat_map sent l = map (fetch_result remote repository) (map gtag l).
Proof.
  induction 1 as [|g l Hg _ IH]; intros Hok; simpl; [done|].
  inversion Hok as [|? ? Hg' Hl]; subst.
  destruct g; try discriminate. simpl in *. subst r. by rewrite IH.
Qed.


(** ** The invariant holds along every execution of [tagsToRepository] *)

Section Machine.

Variable sort_Sort : (Image -> Image -> bool) -> list Image -> list Image.
Variable remote : Remote.
Variable repository : Repository.
Variable tags : list string.
Variable tr0 : list event.

Local Abbreviation Inv' := (Inv sort_Sort remote repository tags tr0).
Local Abbreviation step' := (step sort_Sort remote repository (length tags)).
Local Abbreviation run' := (run sort_Sort remote repository (length tags)).
Local Abbreviation main_inv' := (main_inv sort_Sort tags).

Lemma Inv_enter : Inv' (enter tr0 tags) [].
Proof.
  split; simpl; try done.
  by rewrite app_nil_r.
Qed.

(** Events of the goroutines leave the caller's bookkeeping alone. *)
Lemma main_inv_frame pc tr evs :
  main_inv' pc tr -> received evs = [] -> cancels evs = 0 ->
  main_inv' pc (tr ++ evs).
Proof.
  intros H Hr Hc. destruct pc; simpl in *;
    rewrite ?received_app, ?cancels_app, ?Hr, ?Hc, ?app_nil_r, ?Nat.add_0_r; try done.
  destruct H as (tr1 & tr2 & -> & Ho & Hc1 & Hr2 & Hc2).
  exists tr1, (tr2 ++ evs). rewrite <- app_assoc. simpl.
  rewrite received_app, cancels_app, Hr, Hc, Hr2, Hc2. done.
Qed.

Lemma Inv_step_main st st' tr :
  Inv' st tr -> step_main sort_Sort (length tags) st = Some st' ->
  exists evs, Inv' st' (tr ++ evs).
Proof.
  intros [Htr Hmain Hcalls Hchan Hgos Htags] Hstep.
  unfold step_main in Hstep. unfold spawned in Htags.
  destruct (main st) as [[|t rest]|i images|ret|ret] eqn:Hm; simpl in Hmain.
  - (* the range loop is over: make the slice *)
    injection Hstep as <-. exists []. rewrite (app_nil_r tr).
    destruct Hmain as [Hr Hc].
    split; simpl; try done.
    + rewrite Hr. simpl. rewrite length_replicate. repeat split; auto with lia.
    + unfold spawned; simpl. by rewrite app_nil_r in Htags.
  - (* go func(t) *)
    injection Hstep as <-. exists []. rewrite (app_nil_r tr).
    split; simpl; try done.
    + rewrite flat_map_app. simpl. by rewrite app_nil_r.
    + rewrite flat_map_app. simpl. by rewrite app_nil_r.
    + apply Forall_app. split; [done|]. by constructor.
    + unfold spawned; simpl. rewrite map_app. simpl. by rewrite <- app_assoc.
  - destruct Hmain as (Hok & Hlen & Hle & Hlim & Htake & Hc).
    destruct (decide (i < length tags)) as [Hlt|Hge].
    + destruct (fetched st) as [|res q] eqn:Hf; [discriminate|].
      destruct (err res) as [e|] eqn:He; injection Hstep as <-.
      * (* a failed result: return nil, res.err *)
        exists [EvRecv res].
        split; simpl; try done.
        -- by rewrite Htr, app_assoc.
        -- rewrite received_app, cancels_app, Hc. simpl. split; [|done].
           exists (received tr), res. repeat split; auto with lia.
        -- by rewrite manifest_calls_app, app_nil_r.
        -- rewrite received_app. simpl. by rewrite <- app_assoc.
      * (* images[i] = res.image *)
        exists [EvRecv res].
        split; simpl; try done.
        -- by rewrite Htr, app_assoc.
        -- rewrite received_app, cancels_app, Hc. simpl.
           rewrite length_app, length_insert, map_app. simpl.
           repeat split; auto with lia.
           ++ apply Forall_app. split; [done|]. by constructor.
           ++ (* slot [i] is written, the slots below it are untouched *)
              rewrite (take_S_r _ _ (image res)) by (apply list_lookup_insert_eq; lia).
              by rewrite take_insert_ge, Htake by lia.
        -- by rewrite manifest_calls_app, app_nil_r.
        -- rewrite received_app. simpl. by rewrite <- app_assoc.
    + (* the loop is over: sort and return *)
      injection Hstep as <-. exists []. rewrite (app_nil_r tr).
      assert (length (received tr) = length tags) as Hall by lia.
      split; simpl; try done.
      split; [|done]. repeat split; auto.
      rewrite <- Htake. by rewrite take_ge by lia.
  - (* the deferred remote.Cancel() *)
    injection Hstep as <-. exists [EvCancel].
    destruct Hmain as [Ho Hc].
    split; simpl; try done.
    + by rewrite Htr, app_assoc.
    + exists tr, []. done.
    + by rewrite manifest_calls_app, app_nil_r.
    + by rewrite received_app, app_nil_r.
  - discriminate.
Qed.

Lemma Inv_step_go k st st' tr :
  Inv' st tr -> step_go remote repository (length tags) k st = Some st' ->
  exists evs, Inv' st' (tr ++ evs).
Proof.
  intros [Htr Hmain Hcalls Hchan Hgos Htags] Hstep.
  unfold step_go in Hstep.
  destruct (gos st !! k) as [g|] eqn:Hk; [|discriminate].
  pose proof (Forall_lookup_1 _ _ _ _ Hgos Hk) as Hg.
  assert (forall g', gtag g' = gtag g -> spawned tags
            {| main := main st; gos := <[k := g']> (gos st);
               fetched := fetched st; trace := trace st |}) as Htags'.
  { intros g' Hg'. unfold spawned in *. simpl.
    rewrite (map_gtag_insert _ _ _ _ Hk Hg'). done. }
  destruct g as [t|t|t im x|t r|t r]; simpl in Hg.
  - (* image, err := remote.Manifest(repository, t): the call *)
    injection Hstep as <-. exists [EvManifest repository t].
    split; simpl.
    + by rewrite Htr, app_assoc.
    + by apply main_inv_frame.
    + rewrite manifest_calls_app. simpl.
      rewrite (flat_map_insert_new called_tag _ _ _ (GWait t) Hk) by done.
      simpl. by rewrite Hcalls.
    + rewrite received_app, app_nil_r.
      by rewrite (flat_map_insert_same sent _ _ _ (GWait t) Hk).
    + by apply Forall_insert.
    + by apply Htags'.
  - (* its answer *)
    destruct (Manifest remote repository t) as [im [x|]] eqn:HM;
      injection Hstep as <-; exists []; rewrite (app_nil_r tr).
    + split; simpl; try done.
      * by rewrite (flat_map_insert_same called_tag _ _ _ (GLog t im x) Hk).
      * by rewrite (flat_map_insert_same sent _ _ _ (GLog t im x) Hk).
      * by apply Forall_insert.
      * by apply Htags'.
    + split; simpl; try done.
      * by rewrite (flat_map_insert_same called_tag _ _ _ (GSend t _) Hk).
      * by rewrite (flat_map_insert_same sent _ _ _ (GSend t _) Hk).
      * apply Forall_insert; [done|]. simpl. unfold fetch_result. by rewrite HM.
      * by apply Htags'.
  - (* reg.Logger.Log("registry-metadata-err", err) *)
    injection Hstep as <-. exists [EvLog x].
    split; simpl.
    + by rewrite Htr, app_assoc.
    + by apply main_inv_frame.
    + rewrite manifest_calls_app, app_nil_r.
      by rewrite (flat_map_insert_same called_tag _ _ _ (GSend t _) Hk).
    + rewrite received_app, app_nil_r.
      by rewrite (flat_map_insert_same sent _ _ _ (GSend t _) Hk).
    + apply Forall_insert; [done|]. simpl. unfold fetch_result. by rewrite Hg.
    + by apply Htags'.
  - (* fetched <- result{image, err} *)
    destruct (decide (length (fetched st) < length tags)); [|discriminate].
    injection Hstep as <-. exists []. rewrite (app_nil_r tr).
    split; simpl; try done.
    + by rewrite (flat_map_insert_same called_tag _ _ _ (GExit t r) Hk).
    + rewrite (flat_map_insert_new sent _ _ _ (GExit t r) Hk) by done.
      simpl. by rewrite app_assoc, Hchan.
    + by apply Forall_insert.
    + by apply Htags'.
  - discriminate.
Qed.

Lemma Inv_step c st st' tr :
  Inv' st tr -> step' c st = Some st' -> exists evs, Inv' st' (tr ++ evs).
Proof.
  destruct c; simpl; eauto using Inv_step_main, Inv_step_go.
Qed.

Lemma Inv_run sched : forall st st' tr,
  Inv' st tr -> run' sched st = Some st' -> exists evs, Inv' st' (tr ++ evs).
Proof.
  induction sched as [|c sched IH]; intros st st' tr HI Hrun; simpl in Hrun.
  - injection Hrun as <-. exists []. by rewrite app_nil_r.
  - destruct (step' c st) as [st1|] eqn:Hs; [|discriminate].
    destruct (Inv_step _ _ _ _ HI Hs) as [evs1 HI1].
    destruct (IH _ _ _ HI1 Hrun) as [evs2 HI2].
    exists (evs1 ++ evs2). by rewrite app_assoc.
Qed.

(** Every state an execution of [tagsToRepository] reaches. *)
Lemma Inv_reach sched st :
  tagsToRepository sort_Sort remote repository tags tr0 sched = Some st ->
  exists tr, Inv' st tr.
Proof.
  intros Hrun. destruct (Inv_run _ _ _ _ Inv_enter Hrun) as [evs HI]. eauto.
Qed.

End Machine.

(** ** No execution blocks for ever, and every execution is finite *)

Lemma sent_length_lt (l : list goroutine) k g :
  l !! k = Some g -> unsent g = true -> length (flat_map sent l) < length l.
Proof.
  revert k. induction l as [|a l IH]; intros [|k] Hk Hu; simplify_eq/=.
  - pose proof (sent_length_le l). rewrite length_app.
    destruct g; simpl in *; try discriminate; lia.
  - specialize (IH k Hk Hu). rewrite length_app.
    destruct a; simpl; lia.
Qed.

Section Progress.

Variable sort_Sort : (Image -> Image -> bool) -> list Image -> list Image.
Variable remote : Remote.
Variable repository : Repository.
Variable tags : list string.
Variable tr0 : list event.

Local Abbreviation Inv' := (Inv sort_Sort remote repository tags tr0).
Local Abbreviation step' := (step sort_Sort remote repository (length tags)).
Local Abbreviation run' := (run sort_Sort remote repository (length tags)).

Lemma run_app s1 : forall s2 st,
  run' (s1 ++ s2) st =
  match run' s1 st with Some st1 => run' s2 st1 | None => None end.
Proof.
  induction s1 as [|c s1 IH]; intros s2 st; simpl; [done|].
  destruct (step' c st); [apply IH|done].
Qed.

Lemma spawned_length st : spawned tags st -> length (gos st) <= length tags.
Proof.
  unfold spawned. destruct (main st); intros <-;
    rewrite ?length_app, !length_map; lia.
Qed.

(** The channel has room for every send: its capacity is the number of
    goroutines that will ever exist. *)
Lemma send_never_blocks st tr k t r :
  Inv' st tr -> gos st !! k = Some (GSend t r) ->
  length (fetched st) < length tags.
Proof.
  intros HI Hk.
  pose proof (Permutation_length (inv_chan _ _ _ _ _ _ _ HI)) as Hlen.
  rewrite length_app in Hlen.
  pose proof (sent_length_lt _ _ _ Hk eq_refl).
  pose proof (spawned_length _ (inv_tags _ _ _ _ _ _ _ HI)). lia.
Qed.

Lemma go_enabled st tr k g :
  Inv' st tr -> gos st !! k = Some g -> unsent g = true ->
  exists st', step' (Go k) st = Some st'.
Proof.
  intros HI Hk Hu. simpl. unfold step_go. rewrite Hk.
  destruct g as [t|t|t im x|t r|t r]; try discriminate; eauto.
  - destruct (Manifest remote repository t) as [im [x|]]; eauto.
  - pose proof (send_never_blocks _ _ _ _ _ HI Hk).
    destruct (decide (length (fetched st) < length tags)); [eauto|lia].
Qed.

(** As long as the caller has not returned, somebody can move. *)
Lemma progress st tr :
  Inv' st tr -> returned st = None -> exists c st', step' c st = Some st'.
Proof.
  intros HI Hret. unfold returned in Hret.
  destruct (main st) as [[|t rest]|i images|ret|ret] eqn:Hm; try discriminate.
  - exists Main. simpl. unfold step_main. rewrite Hm. eauto.
  - exists Main. simpl. unfold step_main. rewrite Hm. eauto.
  - destruct (decide (i < length tags)) as [Hlt|Hge].
    + destruct (fetched st) as [|res q] eqn:Hf.
      * (* blocked on the channel: some goroutine has yet to send *)
        pose proof (inv_main _ _ _ _ _ _ _ HI) as Hmain. rewrite Hm in Hmain.
        destruct Hmain as (_ & Hlen & _).
        pose proof (Permutation_length (inv_chan _ _ _ _ _ _ _ HI)) as Hl.
        rewrite Hf, app_nil_r in Hl.
        pose proof (inv_tags _ _ _ _ _ _ _ HI) as Htags. unfold spawned in Htags.
        rewrite Hm in Htags.
        assert (length (gos st) = length tags) as Hg
          by (rewrite <- Htags; by rewrite length_map).
        destruct (unsent_exists (gos st)) as (k & g & Hk & Hu); [lia|].
        destruct (go_enabled _ _ _ _ HI Hk Hu) as [st' Hs]. eauto.
      * exists Main. simpl. unfold step_main. rewrite Hm, Hf.
        destruct (decide (i < length tags)); [|lia].
        destruct (err res); eauto.
    + exists Main. simpl. unfold step_main. rewrite Hm.
      destruct (decide (i < length tags)); [lia|]. eauto.
  - exists Main. simpl. unfold step_main. rewrite Hm. eauto.
Qed.

(** Every step uses up fuel. *)
Lemma step_fuel c st st' :
  step' c st = Some st' -> fuel (length tags) st' < fuel (length tags) st.
Proof.
  destruct c as [|k]; simpl; unfold fuel.
  - unfold step_main.
    destruct (main st) as [[|t rest]|i images|ret|ret] eqn:Hm.
    + intros [= <-]. simpl. lia.
    + intros [= <-]. simpl. rewrite sum_list_with_app. simpl. lia.
    + destruct (decide (i < length tags)).
      * destruct (fetched st) as [|res q]; [discriminate|].
        destruct (err res); intros [= <-]; simpl; lia.
      * intros [= <-]. simpl. lia.
    + intros [= <-]. simpl. lia.
    + discriminate.
  - unfold step_go.
    destruct (gos st !! k) as [g|] eqn:Hk; [|discriminate].
    destruct g as [t|t|t im x|t r|t r].
    + intros [= <-]. simpl.
      pose proof (sum_fuel_insert _ _ _ (GWait t) Hk). simpl in *. lia.
    + destruct (Manifest remote repository t) as [im [x|]]; intros [= <-]; simpl.
      * pose proof (sum_fuel_insert _ _ _ (GLog t im x) Hk). simpl in *. lia.
      * pose proof (sum_fuel_insert _ _ _
                      (GSend t {| image := im; err := None |}) Hk). simpl in *. lia.
    + intros [= <-]. simpl.
      pose proof (sum_fuel_insert _ _ _
                    (GSend t {| image := im; err := Some x |}) Hk). simpl in *. lia.
    + destruct (decide (length (fetched st) < length tags)); [|discriminate].
      intros [= <-]. simpl.
      pose proof (sum_fuel_insert _ _ _ (GExit t r) Hk). simpl in *. lia.
    + discriminate.
Qed.

(** An execution has at most as many steps as the fuel it starts with. *)
Lemma run_fuel sched : forall st st',
  run' sched st = Some st' ->
  length sched + fuel (length tags) st' <= fuel (length tags) st.
Proof.
  induction sched as [|c sched IH]; intros st st' Hrun; simpl in Hrun.
  - injection Hrun as <-. simpl. lia.
  - destruct (step' c st) as [st1|] eqn:Hs; [|discriminate].
    pose proof (step_fuel _ _ _ Hs). specialize (IH _ _ Hrun). simpl. lia.
Qed.

(** From every state of an execution the caller can be brought to
    return. *)
Lemma can_return n : forall st tr,
  fuel (length tags) st <= n -> Inv' st tr ->
  exists sched st' ret, run' sched st = Some st' /\ returned st' = Some ret.
Proof.
  induction n as [|n IH]; intros st tr Hn HI;
    destruct (returned st) as [ret|] eqn:Hret;
    try (exists [], st, ret; done).
  - destruct (progress _ _ HI Hret) as (c & st1 & Hs).
    pose proof (step_fuel _ _ _ Hs). lia.
  - destruct (progress _ _ HI Hret) as (c & st1 & Hs).
    pose proof (step_fuel _ _ _ Hs).
    destruct (Inv_step _ _ _ _ _ _ _ _ _ HI Hs) as [evs HI1].
    destruct (IH st1 _ ltac:(lia) HI1) as (sched & st' & ret & Hrun & Hr).
    exists (c :: sched), st', ret. simpl. rewrite Hs. done.
Qed.

End Progress.

(** ** What the invariant says once the caller has returned *)

Lemma sent_elem_of (l : list goroutine) (r : result) :
  r ∈ flat_map sent l -> exists t, GExit t r ∈ l.
Proof.
  induction l as [|g l IH]; simpl; [by intros ?%elem_of_nil|].
  rewrite elem_of_app. intros [Hg|Hl].
  - destruct g; simpl in Hg; try by apply elem_of_nil in Hg.
    apply list_elem_of_singleton in Hg as ->. eexists. by left.
  - destruct (IH Hl) as [t Ht]. exists t. by right.
Qed.

Lemma first_error_app_ok (oks : list result) (r : result) (e : error) :
  Forall is_ok oks -> err r = Some e -> first_error (oks ++ [r]) = Some e.
Proof.
  induction 1 as [|a oks Ha _ IH]; intros He; simpl.
  - by rewrite He.
  - unfold is_ok in Ha. rewrite Ha. by apply IH.
Qed.

Lemma map_fetch_result_image remote repository (l : list string) :
  map image (map (fetch_result remote repository) l) =
  map (fun t => fst (Manifest remote repository t)) l.
Proof.
  rewrite map_map. apply map_ext. intros t. unfold fetch_result.
  by destruct (Manifest remote repository t).
Qed.

Section Returned.

Variable sort_Sort : (Image -> Image -> bool) -> list Image -> list Image.
Variable remote : Remote.
Variable repository : Repository.
Variable tags : list string.
Variable tr0 : list event.

Local Abbreviation Inv' := (Inv sort_Sort remote repository tags tr0).

(** A result on the channel or taken from it is the remote's answer
    for one of the tags. *)
Lemma received_from_tags st tr r :
  Inv' st tr -> r ∈ received tr ->
  exists t, t ∈ tags /\ r = fetch_result remote repository t.
Proof.
  intros HI Hr.
  assert (r ∈ flat_map sent (gos st)) as Hs.
  { rewrite <- (inv_chan _ _ _ _ _ _ _ HI). apply elem_of_app. by left. }
  destruct (sent_elem_of _ _ Hs) as [t Ht]. exists t. split.
  - assert (t ∈ map gtag (gos st)) as Hin
      by (apply (list_elem_of_fmap_2 gtag _ _ Ht)).
    pose proof (inv_tags _ _ _ _ _ _ _ HI) as Htags. unfold spawned in Htags.
    destruct (main st); subst tags; try done. apply elem_of_app. by left.
  - pose proof (inv_gos _ _ _ _ _ _ _ HI) as Hgos.
    rewrite Forall_forall in Hgos. apply (Hgos _ Ht).
Qed.

(** After the return: the deferred [Cancel] ran once, after the last
    reception, and the returned value is an outcome of the receptions. *)
Lemma Inv_done st tr ret :
  Inv' st tr -> returned st = Some ret ->
  exists tr1 tr2, tr = tr1 ++ EvCancel :: tr2 /\
    outcome sort_Sort tags ret (received tr) /\
    received tr1 = received tr /\ received tr2 = [] /\
    cancels tr1 = 0 /\ cancels tr = 1 /\
    map gtag (gos st) = tags.
Proof.
  intros HI Hret. unfold returned in Hret.
  pose proof (inv_main _ _ _ _ _ _ _ HI) as Hmain.
  pose proof (inv_tags _ _ _ _ _ _ _ HI) as Htags. unfold spawned in Htags.
  destruct (main st) as [| | |ret']; try discriminate. injection Hret as ->.
  destruct Hmain as (tr1 & tr2 & -> & Ho & Hc1 & Hr2 & Hc2).
  exists tr1, tr2.
  assert (received (tr1 ++ EvCancel :: tr2) = received tr1) as Hrec.
  { rewrite received_app. simpl. fold (received tr2). by rewrite Hr2, app_nil_r. }
  rewrite Hrec, cancels_app, cancels_cons, Hc1, Hc2. simpl.
  repeat split; auto.
Qed.


(** When as many results were taken as there are tags, every goroutine
    has reported, and [Manifest] was called once for each tag. *)
Lemma Inv_all_received st tr :
  Inv' st tr -> map gtag (gos st) = tags ->
  length (received tr) = length tags ->
  fetched st = [] /\
  Forall (fun g => unsent g = false) (gos st) /\
  received tr ≡ₚ map (fetch_result remote repository) tags /\
  manifest_calls tr ≡ₚ tags.
Proof.
  intros HI Htags Hlen.
  pose proof (inv_chan _ _ _ _ _ _ _ HI) as Hchan.
  pose proof (Permutation_length Hchan) as Hl. rewrite length_app in Hl.
  pose proof (sent_length_le (gos st)) as Hle.
  assert (length (gos st) = length tags) as Hg
    by (rewrite <- Htags; by rewrite length_map).
  assert (fetched st = []) as Hf by (apply length_zero_iff_nil; lia).
  assert (Forall (fun g => unsent g = false) (gos st)) as Hall
    by (apply all_sent; lia).
  repeat split; auto.
  - rewrite Hf, app_nil_r in Hchan. rewrite Hchan.
    rewrite (all_sent_results remote repository _ Hall (inv_gos _ _ _ _ _ _ _ HI)).
    by rewrite Htags.
  - rewrite (inv_calls _ _ _ _ _ _ _ HI), (all_sent_called _ Hall). by rewrite Htags.
Qed.

End Returned.

Lemma err_fetch_result remote repository t :
  err (fetch_result remote repository t) = snd (Manifest remote repository t).
Proof. unfold fetch_result. by destruct (Manifest remote repository t). Qed.

Section Verdict.

Variable sort_Sort : (Image -> Image -> bool) -> list Image -> list Image.
Variable remote : Remote.
Variable repository : Repository.
Variable tags : list string.
Variable tr0 : list event.

Local Abbreviation Inv' := (Inv sort_Sort remote repository tags tr0).

(** A failing tag makes every return a failure. *)
Lemma failing_returns_error st tr ret t :
  Inv' st tr -> returned st = Some ret ->
  t ∈ tags -> snd (Manifest remote repository t) <> None ->
  exists e, ret = (None, Some e).
Proof.
  intros HI Hret Ht Hbad.
  destruct (Inv_done _ _ _ _ _ _ _ _ HI Hret)
    as (tr1 & tr2 & _ & Ho & _ & _ & _ & _ & Htags).
  destruct ret as [[images|] [e|]]; simpl in Ho; try done; [|eauto].
  destruct Ho as (Hok & Hlen & _).
  destruct (Inv_all_received _ _ _ _ _ _ _ HI Htags Hlen) as (_ & _ & Hperm & _).
  rewrite Hperm in Hok. rewrite Forall_forall in Hok.
  specialize (Hok (fetch_result remote repository t)
                  (list_elem_of_fmap_2 _ _ _ Ht)).
  unfold is_ok in Hok. rewrite err_fetch_result in Hok. done.
Qed.

(** Without a failing tag every return is a success. *)
Lemma all_ok_returns_images st tr ret :
  Inv' st tr -> returned st = Some ret ->
  (forall t, t ∈ tags -> snd (Manifest remote repository t) = None) ->
  exists images, ret = (Some images, None) /\
    images = sort_Sort less (map image (received tr)) /\
    length (received tr) = length tags.
Proof.
  intros HI Hret Hgood.
  destruct (Inv_done _ _ _ _ _ _ _ _ HI Hret)
    as (tr1 & tr2 & _ & Ho & _ & _ & _ & _ & Htags).
  destruct ret as [[images|] [e|]]; simpl in Ho; try done.
  - destruct Ho as (Hok & Hlen & ->). eauto.
  - destruct Ho as (oks & r & Hrs & _ & He & _).
    assert (r ∈ received tr) as Hr
      by (rewrite Hrs; apply elem_of_app; right; by apply list_elem_of_singleton).
    destruct (received_from_tags _ _ _ _ _ _ _ _ HI Hr) as (t & Ht & ->).
    rewrite err_fetch_result, (Hgood t Ht) in He. done.
Qed.

End Verdict.

(** ** The ordering policy *)

Lemma ascii_compare_lt c d :
  Ascii.compare c d = Lt <-> nat_of_ascii c < nat_of_ascii d.
Proof.
  unfold Ascii.compare, nat_of_ascii. rewrite N.compare_lt_iff. lia.
Qed.

Lemma ascii_compare_refl c : Ascii.compare c c = Eq.
Proof. apply N.compare_refl. Qed.

(** [<] on Go strings is the byte-wise lexicographic order. *)
Lemma String_ltb_lex s : forall s', String.ltb s s' = true <-> lex_lt s s'.
Proof.
  unfold String.ltb.
  induction s as [|a s IH]; intros [|b s']; simpl.
  - split; [discriminate|inversion 1].
  - split; [constructor|done].
  - split; [discriminate|inversion 1].
  - destruct (Ascii.compare a b) eqn:E.
    + apply Ascii.compare_eq_iff in E as ->. rewrite IH. split.
      * apply lex_lt_tail.
      * inversion 1 as [| ? ? ? ? Hlt | ? ? ? Htl]; subst; [lia|done].
    + split; [|done]. intros _. apply lex_lt_head. by apply ascii_compare_lt.
    + split; [discriminate|].
      inversion 1 as [| ? ? ? ? Hlt | ? ? ? Htl]; subst.
      * apply ascii_compare_lt in Hlt. congruence.
      * rewrite ascii_compare_refl in E. discriminate.
Qed.

(** C5. [Less(i, j)] on two images [a = is[i]] and [b = is[j]]: when [a]
    has no timestamp, [a] is before [b]; otherwise, when [b] has none, [b]
    is before [a]; otherwise, with equal timestamps, the full names in
    ascending lexicographic order decide; otherwise the later timestamp
    is first. *)
Theorem Less_policy (images : list Image) (i j : nat) (a b : Image) :
  images !! i = Some a -> images !! j = Some b ->
  exists ab ba, Less images i j = Some ab /\ Less images j i = Some ba /\
    (CreatedAt a = None -> ab = true) /\
    (CreatedAt a <> None -> CreatedAt b = None -> ab = false /\ ba = true) /\
    (forall ta tb, CreatedAt a = Some ta -> CreatedAt b = Some tb ->
       (ta = tb -> (ab = true <-> lex_lt (Image_String a) (Image_String b))) /\
       (ta <> tb -> (ab = true <-> (tb < ta)%Z))).
Proof.
  intros Ha Hb. unfold Less. rewrite Ha, Hb.
  exists (less a b), (less b a).
  split; [done|]. split; [done|]. split; [|split].
  - intros Hn. unfold less. by rewrite Hn.
  - intros Hsome Hn. unfold less. rewrite Hn. by destruct (CreatedAt a).
  - intros ta tb Hta Htb. unfold less, Time_Equal, Time_After. rewrite Hta, Htb.
    split.
    + intros ->. rewrite Z.eqb_refl. apply String_ltb_lex.
    + intros Hne. destruct (Z.eqb_spec ta tb); [done|]. apply Z.ltb_lt.
Qed.

(** C6. Two images that both lack a timestamp are each [Less] than the
    other, so the comparator is not a strict order: asymmetry fails, and
    with it irreflexivity. *)
Theorem Less_both_ways (images : list Image) (i j : nat) (a b : Image) :
  images !! i = Some a -> images !! j = Some b ->
  CreatedAt a = None -> CreatedAt b = None ->
  Less images i j = Some true /\ Less images j i = Some true /\
  ~ (forall x y : Image, less x y = true -> less y x = true -> False) /\
  ~ StrictOrder (fun x y : Image => less x y = true).
Proof.
  intros Ha Hb Hna Hnb.
  assert (less a b = true) as Hab by (unfold less; by rewrite Hna).
  assert (less b a = true) as Hba by (unfold less; by rewrite Hnb).
  assert (less a a = true) as Haa by (unfold less; by rewrite Hna).
  unfold Less. rewrite Ha, Hb, Hab, Hba. repeat split; auto.
  - intros Hasym. exact (Hasym a b Hab Hba).
  - intros [Hirr _]. exact (Hirr a Haa).
Qed.

(** ** [GetRepository] and [GetImage] *)

Section Claims.

Context {Metrics : Type}.
Variable NewInstrumentedRemote : Remote -> Metrics -> Remote.
Variable sort_Sort : (Image -> Image -> bool) -> list Image -> list Image.

(** [sort.Sort] only swaps elements. *)
Hypothesis sort_Sort_perm : forall lt l, sort_Sort lt l ≡ₚ l.

Local Abbreviation GetRepository' := (GetRepository NewInstrumentedRemote sort_Sort).
Local Abbreviation GetImage' := (GetImage NewInstrumentedRemote).
Local Abbreviation instrumented reg rem0 :=
  (NewInstrumentedRemote rem0 (reg_Metrics reg)).
Local Abbreviation entry img := [EvCreateFor (Host img); EvTags img].

Lemma GetRepository_listing (reg : registry) img rem0 tags sched :
  CreateFor (factory reg) (Host img) = (rem0, None) ->
  Tags (instrumented reg rem0) img = (tags, None) ->
  GetRepository' reg img sched =
  tagsToRepository sort_Sort (instrumented reg rem0) img tags (entry img) sched.
Proof.
  intros HC HT. unfold GetRepository, newRemote. rewrite HC. simpl. by rewrite HT.
Qed.

Lemma listing_Inv (reg : registry) img rem0 tags sched st :
  CreateFor (factory reg) (Host img) = (rem0, None) ->
  Tags (instrumented reg rem0) img = (tags, None) ->
  GetRepository' reg img sched = Some st ->
  exists tr, trace st = entry img ++ tr /\
    Inv sort_Sort (instrumented reg rem0) img tags (entry img) st tr.
Proof.
  intros HC HT. rewrite (GetRepository_listing _ _ _ _ _ HC HT). intros Hrun.
  destruct (Inv_reach _ _ _ _ _ _ _ Hrun) as [tr HI].
  exists tr. split; [apply (inv_trace _ _ _ _ _ _ _ HI)|done].
Qed.

(** Every execution of [GetRepository] can be continued until the call
    returns. *)
Lemma GetRepository_can_return (reg : registry) img sched st :
  GetRepository' reg img sched = Some st ->
  exists sched' st' ret,
    GetRepository' reg img (sched ++ sched') = Some st' /\ returned st' = Some ret.
Proof.
  unfold GetRepository, newRemote.
  destruct (CreateFor (factory reg) (Host img)) as [rem0 [e|]]; simpl.
  - intros _. exists []. do 2 eexists. split; reflexivity.
  - destruct (Tags (instrumented reg rem0) img) as [tags [e|]].
    + intros _. exists []. do 2 eexists. split; reflexivity.
    + unfold tagsToRepository. intros Hrun.
      destruct (Inv_run _ _ _ _ _ _ _ _ _ (Inv_enter _ _ _ _ _) Hrun) as [evs HI].
      destruct (can_return _ _ _ _ _ _ _ _ (le_n _) HI)
        as (sched' & st' & ret & Hrun' & Hret).
      exists sched', st', ret. by rewrite run_app, Hrun.
Qed.

Lemma GetRepository_returns (reg : registry) img :
  exists sched st ret,
    GetRepository' reg img sched = Some st /\ returned st = Some ret.
Proof.
  assert (exists st, GetRepository' reg img [] = Some st) as [st Hst].
  { unfold GetRepository, newRemote.
    destruct (CreateFor (factory reg) (Host img)) as [rem0 [e|]]; simpl; eauto.
    destruct (Tags (instrumented reg rem0) img) as [tags [e|]]; eauto. }
  destruct (GetRepository_can_return _ _ _ _ Hst) as (sched & st' & ret & H & Hr).
  eauto.
Qed.

Lemma Inv_not_done remote repository tags tr0 st tr :
  Inv sort_Sort remote repository tags tr0 st tr ->
  returned st = None -> cancels tr = 0.
Proof.
  intros HI Hret. pose proof (inv_main _ _ _ _ _ _ _ HI) as Hmain.
  unfold returned in Hret. destruct (main st); simpl in Hmain; try discriminate.
  - by destruct Hmain.
  - by destruct Hmain as (_ & _ & _ & _ & _ & ?).
  - by destruct Hmain.
Qed.

(** C2. Once a [Remote] is acquired, [Cancel] is called exactly once by
    the time [GetRepository] returns, whatever it returns; it is not
    called before, and every execution can be continued to a return. *)
Theorem Cancel_exactly_once (reg : registry) img rem0 :
  CreateFor (factory reg) (Host img) = (rem0, None) ->
  forall sched st, GetRepository' reg img sched = Some st ->
    (forall ret, returned st = Some ret -> cancels (trace st) = 1) /\
    (returned st = None -> cancels (trace st) = 0) /\
    (exists sched' st' ret,
       GetRepository' reg img (sched ++ sched') = Some st' /\
       returned st' = Some ret /\ cancels (trace st') = 1).
Proof.
  intros HC.
  assert (forall sched st, GetRepository' reg img sched = Some st ->
    (forall ret, returned st = Some ret -> cancels (trace st) = 1) /\
    (returned st = None -> cancels (trace st) = 0)) as Hboth.
  { intros sched st.
    destruct (Tags (instrumented reg rem0) img) as [tags [e|]] eqn:HT.
    - unfold GetRepository, newRemote. rewrite HC. simpl. rewrite HT.
      intros [= <-]. simpl. split; [done|discriminate].
    - intros Hrun. destruct (listing_Inv _ _ _ _ _ _ HC HT Hrun) as (tr & Htr & HI).
      rewrite Htr, cancels_app. split.
      + intros ret Hret.
        by destruct (Inv_done _ _ _ _ _ _ _ _ HI Hret)
          as (? & ? & _ & _ & _ & _ & _ & -> & _).
      + intros Hret. by rewrite (Inv_not_done _ _ _ _ _ _ HI Hret). }
  intros sched st Hrun. destruct (Hboth _ _ Hrun) as [H1 H0].
  repeat split; auto.
  destruct (GetRepository_can_return _ _ _ _ Hrun) as (sched' & st' & ret & Hrun' & Hret).
  exists sched', st', ret. repeat split; auto.
  by apply (proj1 (Hboth _ _ Hrun') ret).
Qed.

(** C7. When listing the tags fails, [GetRepository] returns that
    error, has called [Cancel] as its last act, and has neither spawned
    a goroutine nor called [Manifest]. *)
Theorem tags_error_released (reg : registry) img rem0 tags e :
  CreateFor (factory reg) (Host img) = (rem0, None) ->
  Tags (instrumented reg rem0) img = (tags, Some e) ->
  forall sched, exists st,
    GetRepository' reg img sched = Some st /\
    returned st = Some (None, Some e) /\
    trace st = [EvCreateFor (Host img); EvTags img; EvCancel] /\
    manifest_calls (trace st) = [] /\ cancels (trace st) = 1 /\
    gos st = [].
Proof.
  intros HC HT sched. unfold GetRepository, newRemote. rewrite HC. simpl. rewrite HT.
  eexists. split; [done|]. by simpl.
Qed.

(** C8. When the factory fails, [GetRepository] and [GetImage] return
    the factory's error itself, and the only call made is the one on
    the factory. *)
Theorem factory_error_unchanged (reg : registry) img rem0 e :
  CreateFor (factory reg) (Host img) = (rem0, Some e) ->
  (forall sched, exists st,
     GetRepository' reg img sched = Some st /\
     returned st = Some (None, Some e) /\
     trace st = [EvCreateFor (Host img)] /\ gos st = [] /\
     Forall (fun ev => is_tags ev = false /\ is_manifest ev = false) (trace st)) /\
  (forall tag, exists tr,
     GetImage' reg img tag = (zeroImage, Some e, tr) /\
     tr = [EvCreateFor (Host img)] /\
     Forall (fun ev => is_tags ev = false /\ is_manifest ev = false) tr).
Proof.
  intros HC. split.
  - intros sched. unfold GetRepository, newRemote. rewrite HC.
    eexists. split; [done|]. simpl. repeat split; auto.
  - intros tag. unfold GetImage, newRemote. rewrite HC.
    eexists. split; [done|]. repeat split; auto.
Qed.

(** C9. [GetImage] with an acquired [Remote] hands back what [Manifest]
    answers, success or error, and never calls [Cancel]. *)
Theorem GetImage_never_cancels (reg : registry) img rem0 tag :
  CreateFor (factory reg) (Host img) = (rem0, None) ->
  exists tr,
    GetImage' reg img tag = (Manifest (instrumented reg rem0) img tag, tr) /\
    tr = [EvCreateFor (Host img); EvManifest img tag] /\
    cancels tr = 0.
Proof.
  intros HC. unfold GetImage, newRemote. rewrite HC. simpl.
  destruct (Manifest (instrumented reg rem0) img tag) as [im e].
  eexists. split; [done|]. by split.
Qed.

(** C4. When every manifest fetch succeeds, [GetRepository] returns, and
    it returns one image per tag (the images the remote answers for
    the tags, in some order), having called [Manifest] once per tag. *)
Theorem all_fetched_one_per_tag (reg : registry) img rem0 tags :
  CreateFor (factory reg) (Host img) = (rem0, None) ->
  Tags (instrumented reg rem0) img = (tags, None) ->
  (forall t, t ∈ tags -> snd (Manifest (instrumented reg rem0) img t) = None) ->
  (exists sched st ret,
     GetRepository' reg img sched = Some st /\ returned st = Some ret) /\
  (forall sched st ret,
     GetRepository' reg img sched = Some st -> returned st = Some ret ->
     exists images, ret = (Some images, None) /\
       length images = length tags /\
       images ≡ₚ map (fun t => fst (Manifest (instrumented reg rem0) img t)) tags /\
       manifest_calls (trace st) ≡ₚ tags /\
       length (manifest_calls (trace st)) = length tags).
Proof.
  intros HC HT Hgood. split; [apply GetRepository_returns|].
  intros sched st ret Hrun Hret.
  destruct (listing_Inv _ _ _ _ _ _ HC HT Hrun) as (tr & Htr & HI).
  destruct (all_ok_returns_images _ _ _ _ _ _ _ _ HI Hret Hgood)
    as (images & -> & Himages & Hlen).
  destruct (Inv_done _ _ _ _ _ _ _ _ HI Hret)
    as (_ & _ & _ & _ & _ & _ & _ & _ & Htags).
  destruct (Inv_all_received _ _ _ _ _ _ _ HI Htags Hlen)
    as (_ & _ & Hperm & Hcalls).
  assert (images ≡ₚ map (fun t => fst (Manifest (instrumented reg rem0) img t)) tags)
    as Hone.
  { rewrite Himages, sort_Sort_perm, Hperm. by rewrite map_fetch_result_image. }
  assert (manifest_calls (trace st) ≡ₚ tags) as Hm
    by (rewrite Htr, manifest_calls_app; simpl; done).
  exists images. repeat split; auto.
  - by rewrite Hone, length_map.
  - by rewrite Hm.
Qed.

(** C3. When a manifest fetch fails, [GetRepository] returns, and it
    returns no images together with the first error the gather loop
    took from the channel, which is the error of one of the tags. *)
Theorem first_error_no_images (reg : registry) img rem0 tags t0 :
  CreateFor (factory reg) (Host img) = (rem0, None) ->
  Tags (instrumented reg rem0) img = (tags, None) ->
  t0 ∈ tags -> snd (Manifest (instrumented reg rem0) img t0) <> None ->
  (exists sched st ret,
     GetRepository' reg img sched = Some st /\ returned st = Some ret) /\
  (forall sched st ret,
     GetRepository' reg img sched = Some st -> returned st = Some ret ->
     exists e, ret = (None, Some e) /\
       first_error (received (trace st)) = Some e /\
       exists t, t ∈ tags /\ snd (Manifest (instrumented reg rem0) img t) = Some e).
Proof.
  intros HC HT Ht0 Hbad. split; [apply GetRepository_returns|].
  intros sched st ret Hrun Hret.
  destruct (listing_Inv _ _ _ _ _ _ HC HT Hrun) as (tr & Htr & HI).
  destruct (failing_returns_error _ _ _ _ _ _ _ _ _ HI Hret Ht0 Hbad) as [e ->].
  destruct (Inv_done _ _ _ _ _ _ _ _ HI Hret)
    as (_ & _ & _ & Ho & _ & _ & _ & _ & _).
  destruct Ho as (oks & r & Hrs & Hoks & He & _).
  assert (received (trace st) = received tr) as Hrec
    by (rewrite Htr, received_app; done).
  exists e. split; [done|]. split.
  - rewrite Hrec, Hrs. by apply first_error_app_ok.
  - assert (r ∈ received tr) as Hr
      by (rewrite Hrs; apply elem_of_app; right; by apply list_elem_of_singleton).
    destruct (received_from_tags _ _ _ _ _ _ _ _ HI Hr) as (t & Ht & ->).
    exists t. split; [done|]. by rewrite <- err_fetch_result.
Qed.


(** C10. When the remote lists no tags, [GetRepository] returns, and it
    returns an empty image list and no error, with no goroutine spawned,
    no [Manifest] call made and [Cancel] called once. *)
Theorem no_tags_empty_listing (reg : registry) img rem0 :
  CreateFor (factory reg) (Host img) = (rem0, None) ->
  Tags (instrumented reg rem0) img = ([], None) ->
  (exists sched st ret,
     GetRepository' reg img sched = Some st /\ returned st = Some ret) /\
  (forall sched st ret,
     GetRepository' reg img sched = Some st -> returned st = Some ret ->
     ret = (Some [], None) /\ gos st = [] /\
     manifest_calls (trace st) = [] /\ cancels (trace st) = 1).
Proof.
  intros HC HT. split; [apply GetRepository_returns|].
  intros sched st ret Hrun Hret.
  destruct (listing_Inv _ _ _ _ _ _ HC HT Hrun) as (tr & Htr & HI).
  destruct (Inv_done _ _ _ _ _ _ _ _ HI Hret)
    as (_ & _ & _ & Ho & _ & _ & _ & Hc & Htags).
  assert (gos st = []) as Hgos by (by apply map_eq_nil in Htags).
  pose proof (inv_calls _ _ _ _ _ _ _ HI) as Hcalls. rewrite Hgos in Hcalls.
  simpl in Hcalls. apply Permutation_nil_r in Hcalls.
  assert (ret = (Some [], None)) as ->.
  { destruct ret as [[images|] [e|]]; simpl in Ho; try done.
    - destruct Ho as (_ & Hlen & ->). simpl in Hlen.
      apply length_zero_iff_nil in Hlen. rewrite Hlen. simpl.
      by rewrite (proj1 (Permutation_nil_r _) (sort_Sort_perm less [])).
    - destruct Ho as (? & ? & _ & _ & _ & Hlt). simpl in Hlt. lia. }
  rewrite Htr, manifest_calls_app, cancels_app, Hcalls, Hc. done.
Qed.

End Claims.

(** ** The code at concrete inputs *)

Lemma sink_perm {A} (lt : A -> A -> bool) (x : A) (l : list A) :
  sink lt x l ≡ₚ x :: l.
Proof.
  induction l as [|y l IH]; simpl; [done|].
  destruct (lt x y); [|done]. rewrite IH. apply Permutation_swap.
Qed.

Lemma insertionSort_perm {A} (lt : A -> A -> bool) (l : list A) :
  insertionSort lt l ≡ₚ l.
Proof.
  unfold insertionSort. rewrite <- Permutation_rev.
  assert (forall acc, foldl (fun acc x => sink lt x acc) acc l ≡ₚ l ++ acc) as H.
  { induction l as [|x l IH]; intros acc; simpl; [done|].
    rewrite IH, sink_perm. by rewrite Permutation_middle. }
  by rewrite H, app_nil_r.
Qed.

(** Three tags fetched in the order v3, v2, v1: the image without a
    timestamp comes first, the two with equal timestamps follow by name. *)
Example listing_is_sorted :
  (GetRepository0 (registry_of remote_ok) helloworld sched_reverse3) ≫= returned =
  Some (Some [mkImage "v2" None; mkImage "v1" (Some 2%Z); mkImage "v3" (Some 2%Z)], None).
Proof. reflexivity. Qed.

(** The caller blocks on the empty channel: the schedule that lets it
    move a fourth time before any goroutine has sent is not an execution. *)
Example caller_blocks_on_empty_channel :
  GetRepository0 (registry_of remote_ab) helloworld [Main; Main; Main; Main] = None.
Proof. reflexivity. Qed.

(** The error returned need not be that of the first tag dispatched: here
    both fetches fail and the second tag reports first. *)
Example first_observed_not_first_dispatched :
  (GetRepository0 (registry_of remote_bad2) helloworld sched_second_first) ≫= returned =
  Some (None, Some "no b"%string).
Proof. reflexivity. Qed.

(** [Cancel] can run while a [Manifest] call on the same remote is still
    unanswered. *)
Example cancel_with_fetch_in_flight :
  exists st,
    GetRepository0 (registry_of remote_ab) helloworld sched_second_in_flight = Some st /\
    returned st = Some (None, Some "boom"%string) /\
    cancels (trace st) = 1 /\
    filter (fun g => in_flight g = true) (gos st) = [GWait "b"].
Proof. eexists. split; [vm_compute; reflexivity|]. repeat split. Qed.



Lemma Cancel_exactly_once_witness :
  CreateFor (factory (registry_of remote_ab)) (Host helloworld) = (remote_ab, None) /\
  exists st,
    GetRepository0 (registry_of remote_ab) helloworld sched_first_only = Some st /\
    returned st = Some (None, Some "boom"%string) /\
    cancels (trace st) = 1.
Proof.
  split; [reflexivity|].
  eexists. split; [reflexivity|]. split; [reflexivity|].
  exact (proj1 (Cancel_exactly_once plainInstrumented (@insertionSort Image)
                  (registry_of remote_ab) helloworld remote_ab eq_refl
                  sched_first_only _ eq_refl) _ eq_refl).
Defined.

Lemma first_error_no_images_witness :
  ("a"%string ∈ ["a"; "b"]%string /\
   snd (Manifest remote_ab helloworld "a") <> None) /\
  (exists sched st ret,
     GetRepository0 (registry_of remote_ab) helloworld sched = Some st /\
     returned st = Some ret) /\
  (forall sched st ret,
     GetRepository0 (registry_of remote_ab) helloworld sched = Some st ->
     returned st = Some ret ->
     exists e, ret = (None, Some e) /\
       first_error (received (trace st)) = Some e /\
       exists t, t ∈ ["a"; "b"]%string /\ snd (Manifest remote_ab helloworld t) = Some e).
Proof.
  assert ("a"%string ∈ ["a"; "b"]%string) as Hin by apply list_elem_of_here.
  assert (snd (Manifest remote_ab helloworld "a") <> None) as Hbad by (simpl; discriminate).
  split; [by split|].
  exact (first_error_no_images plainInstrumented (@insertionSort Image)
           (registry_of remote_ab) helloworld remote_ab ["a"; "b"]%string "a"%string
           eq_refl eq_refl Hin Hbad).
Defined.

Lemma all_fetched_one_per_tag_witness :
  (forall t, t ∈ ["v1"; "v2"; "v3"]%string -> snd (Manifest remote_ok helloworld t) = None) /\
  (exists sched st ret,
     GetRepository0 (registry_of remote_ok) helloworld sched = Some st /\
     returned st = Some ret) /\
  (forall sched st ret,
     GetRepository0 (registry_of remote_ok) helloworld sched = Some st ->
     returned st = Some ret ->
     exists images, ret = (Some images, None) /\
       length images = 3 /\
       images ≡ₚ map (fun t => fst (Manifest remote_ok helloworld t)) ["v1"; "v2"; "v3"]%string /\
       manifest_calls (trace st) ≡ₚ ["v1"; "v2"; "v3"]%string /\
       length (manifest_calls (trace st)) = 3).
Proof.
  assert (forall t, t ∈ ["v1"; "v2"; "v3"]%string ->
            snd (Manifest remote_ok helloworld t) = None) as Hgood
    by (intros t _; reflexivity).
  split; [exact Hgood|].
  exact (all_fetched_one_per_tag plainInstrumented (@insertionSort Image)
           (@insertionSort_perm Image)
           (registry_of remote_ok) helloworld remote_ok ["v1"; "v2"; "v3"]%string
           eq_refl eq_refl Hgood).
Defined.

Lemma Less_policy_witness :
  let images := [mkImage "b" (Some 1%Z); mkImage "a" (Some 1%Z); mkImage "n" None] in
  let a := mkImage "a" (Some 1%Z) in
  let b := mkImage "b" (Some 1%Z) in
  (images !! 1 = Some a /\ images !! 0 = Some b) /\
  exists ab ba, Less images 1 0 = Some ab /\ Less images 0 1 = Some ba /\
    (CreatedAt a = None -> ab = true) /\
    (CreatedAt a <> None -> CreatedAt b = None -> ab = false /\ ba = true) /\
    (forall ta tb, CreatedAt a = Some ta -> CreatedAt b = Some tb ->
       (ta = tb -> (ab = true <-> lex_lt (Image_String a) (Image_String b))) /\
       (ta <> tb -> (ab = true <-> (tb < ta)%Z))).
Proof.
  simpl. split; [by split|].
  exact (Less_policy [mkImage "b" (Some 1%Z); mkImage "a" (Some 1%Z); mkImage "n" None]
           1 0 _ _ eq_refl eq_refl).
Defined.

Lemma Less_both_ways_witness :
  let images := [mkImage "x" None; mkImage "y" None] in
  (images !! 0 = Some (mkImage "x" None) /\ images !! 1 = Some (mkImage "y" None) /\
   CreatedAt (mkImage "x" None) = None /\ CreatedAt (mkImage "y" None) = None) /\
  Less images 0 1 = Some true /\ Less images 1 0 = Some true /\
  ~ (forall x y : Image, less x y = true -> less y x = true -> False) /\
  ~ StrictOrder (fun x y : Image => less x y = true).
Proof.
  simpl. split; [by repeat split|].
  exact (Less_both_ways [mkImage "x" None; mkImage "y" None] 0 1 _ _
           eq_refl eq_refl eq_refl eq_refl).
Defined.

Lemma tags_error_released_witness :
  (CreateFor (factory (registry_of remote_notags)) (Host helloworld) = (remote_notags, None) /\
   Tags remote_notags helloworld = ([], Some "tags unavailable"%string)) /\
  forall sched, exists st,
    GetRepository0 (registry_of remote_notags) helloworld sched = Some st /\
    returned st = Some (None, Some "tags unavailable"%string) /\
    trace st = [EvCreateFor (Host helloworld); EvTags helloworld; EvCancel] /\
    manifest_calls (trace st) = [] /\ cancels (trace st) = 1 /\
    gos st = [].
Proof.
  split; [by split|].
  exact (tags_error_released plainInstrumented (@insertionSort Image)
           (registry_of remote_notags) helloworld remote_notags [] _ eq_refl eq_refl).
Defined.

Lemma factory_error_unchanged_witness :
  CreateFor (factory registry_down) (Host helloworld)
    = (remote_empty, Some "no such host"%string) /\
  (forall sched, exists st,
     GetRepository0 registry_down helloworld sched = Some st /\
     returned st = Some (None, Some "no such host"%string) /\
     trace st = [EvCreateFor (Host helloworld)] /\ gos st = [] /\
     Forall (fun ev => is_tags ev = false /\ is_manifest ev = false) (trace st)) /\
  (forall tag, exists tr,
     GetImage0 registry_down helloworld tag = (zeroImage, Some "no such host"%string, tr) /\
     tr = [EvCreateFor (Host helloworld)] /\
     Forall (fun ev => is_tags ev = false /\ is_manifest ev = false) tr).
Proof.
  split; [reflexivity|].
  exact (factory_error_unchanged plainInstrumented (@insertionSort Image)
           registry_down helloworld remote_empty _ eq_refl).
Defined.

Lemma GetImage_never_cancels_witness :
  CreateFor (factory (registry_of remote_ab)) (Host helloworld) = (remote_ab, None) /\
  (exists tr,
     GetImage0 (registry_of remote_ab) helloworld "a"
       = (zeroImage, Some "boom"%string, tr) /\
     tr = [EvCreateFor (Host helloworld); EvManifest helloworld "a"] /\
     cancels tr = 0) /\
  (exists tr,
     GetImage0 (registry_of remote_ab) helloworld "b"
       = (mkImage "b" (Some 5%Z), None, tr) /\
     tr = [EvCreateFor (Host helloworld); EvManifest helloworld "b"] /\
     cancels tr = 0).
Proof.
  split; [reflexivity|]. split.
  - exact (GetImage_never_cancels plainInstrumented
             (registry_of remote_ab) helloworld remote_ab "a" eq_refl).
  - exact (GetImage_never_cancels plainInstrumented
             (registry_of remote_ab) helloworld remote_ab "b" eq_refl).
Defined.

Lemma no_tags_empty_listing_witness :
  (CreateFor (factory (registry_of remote_empty)) (Host helloworld) = (remote_empty, None) /\
   Tags remote_empty helloworld = ([], None)) /\
  (exists sched st ret,
     GetRepository0 (registry_of remote_empty) helloworld sched = Some st /\
     returned st = Some ret) /\
  (forall sched st ret,
     GetRepository0 (registry_of remote_empty) helloworld sched = Some st ->
     returned st = Some ret ->
     ret = (Some [], None) /\ gos st = [] /\
     manifest_calls (trace st) = [] /\ cancels (trace st) = 1).
Proof.
  split; [by split|].
  exact (no_tags_empty_listing plainInstrumented (@insertionSort Image)
           (@insertionSort_perm Image)
           (registry_of remote_empty) helloworld remote_empty eq_refl eq_refl).
Defined.

(** * More of the fan-out/gather *)

(** ** Log lines *)

Lemma logged_app tr tr' : logged (tr ++ tr') = logged tr ++ logged tr'.
Proof. apply omap_app. Qed.

Lemma flat_map_elem_of {A B} (f : A -> list B) (l : list A) a b :
  a ∈ l -> b ∈ f a -> b ∈ flat_map f l.
Proof.
  induction 1 as [a l|a a' l _ IH]; simpl; intros Hb; apply elem_of_app; auto.
Qed.

Lemma tag_errors_app remote repository l l' :
  tag_errors remote repository (l ++ l') =
  tag_errors remote repository l ++ tag_errors remote repository l'.
Proof. apply omap_app. Qed.

(** A goroutine logs at most the error of its own tag. *)
Lemma logged_by_submseteq remote repository (l : list goroutine) :
  Forall (g_ok remote repository) l ->
  flat_map logged_by l ⊆+ tag_errors remote repository (map gtag l).
Proof.
  induction 1 as [|g l Hg _ IH]; simpl; [done|].
  unfold tag_errors in *. simpl.
  destruct g as [t|t|t im x|t r|t r]; simpl in *;
    try (destruct (snd (Manifest remote repository t)); [by apply submseteq_cons|done]).
  - subst r. rewrite err_fetch_result.
    destruct (snd (Manifest remote repository t)); [by apply submseteq_skip|done].
  - subst r. rewrite err_fetch_result.
    destruct (snd (Manifest remote repository t)); [by apply submseteq_skip|done].
Qed.

(** Once they have all sent, the goroutines have logged every error. *)
Lemma logged_by_all remote repository (l : list goroutine) :
  Forall (fun g => unsent g = false) l ->
  Forall (g_ok remote repository) l ->
  flat_map logged_by l = tag_errors remote repository (map gtag l).
Proof.
  induction 1 as [|g l Hg _ IH]; intros Hok; simpl; [done|].
  inversion Hok as [|? ? Hg' Hl]; subst.
  destruct g as [t|t|t im x|t r|t r]; try discriminate. simpl in *. subst r.
  unfold tag_errors in *. simpl. rewrite err_fetch_result, (IH Hl).
  by destruct (snd (Manifest remote repository t)).
Qed.

Section Logging.

Variable sort_Sort : (Image -> Image -> bool) -> list Image -> list Image.
Variable remote : Remote.
Variable repository : Repository.
Variable cap : nat.

Local Abbreviation step' := (step sort_Sort remote repository cap).
Local Abbreviation run' := (run sort_Sort remote repository cap).

(** The log holds what the goroutines have logged, on top of what it
    held before ([L]). *)
Lemma logged_step c st st' (L : list error) :
  step' c st = Some st' ->
  logged (trace st) ≡ₚ L ++ flat_map logged_by (gos st) ->
  logged (trace st') ≡ₚ L ++ flat_map logged_by (gos st').
Proof.
  intros Hstep HL. destruct c as [|k]; simpl in Hstep.
  - unfold step_main in Hstep.
    destruct (main st) as [[|t rest]|i images|ret|ret].
    + by injection Hstep as <-.
    + injection Hstep as <-. simpl. rewrite flat_map_app. simpl. by rewrite app_nil_r.
    + destruct (decide (i < cap)).
      * destruct (fetched st) as [|res q]; [discriminate|].
        destruct (err res); injection Hstep as <-; simpl;
          by rewrite logged_app, app_nil_r.
      * by injection Hstep as <-.
    + injection Hstep as <-. simpl. by rewrite logged_app, app_nil_r.
    + discriminate.
  - unfold step_go in Hstep.
    destruct (gos st !! k) as [g|] eqn:Hk; [|discriminate].
    destruct g as [t|t|t im x|t r|t r].
    + injection Hstep as <-. simpl. rewrite logged_app, app_nil_r.
      by rewrite (flat_map_insert_same logged_by _ _ _ (GWait t) Hk).
    + destruct (Manifest remote repository t) as [im [x|]];
        injection Hstep as <-; simpl.
      * by rewrite (flat_map_insert_same logged_by _ _ _ (GLog t im x) Hk).
      * by rewrite (flat_map_insert_same logged_by _ _ _ (GSend t _) Hk).
    + injection Hstep as <-. simpl. rewrite logged_app. simpl.
      rewrite (flat_map_insert_new logged_by _ _ _ (GSend t _) Hk) by done.
      simpl. by rewrite HL, app_assoc.
    + destruct (decide (length (fetched st) < cap)); [|discriminate].
      injection Hstep as <-. simpl.
      by rewrite (flat_map_insert_same logged_by _ _ _ (GExit t r) Hk).
    + discriminate.
Qed.

Lemma logged_run sched (L : list error) : forall st st',
  run' sched st = Some st' ->
  logged (trace st) ≡ₚ L ++ flat_map logged_by (gos st) ->
  logged (trace st') ≡ₚ L ++ flat_map logged_by (gos st').
Proof.
  induction sched as [|c sched IH]; intros st st' Hrun HL; simpl in Hrun.
  - by injection Hrun as <-.
  - destruct (step' c st) as [st1|] eqn:Hs; [|discriminate].
    eauto using logged_step.
Qed.

End Logging.

(** ** Fetches and results against the tags *)

Lemma called_submseteq (l : list goroutine) : flat_map called_tag l ⊆+ map gtag l.
Proof.
  induction l as [|g l IH]; simpl; [done|].
  destruct g; simpl; first [by apply submseteq_cons | by apply submseteq_skip].
Qed.

Lemma sent_submseteq remote repository (l : list goroutine) :
  Forall (g_ok remote repository) l ->
  flat_map sent l ⊆+ map (fetch_result remote repository) (map gtag l).
Proof.
  induction 1 as [|g l Hg _ IH]; simpl; [done|].
  destruct g; simpl in *; try by apply submseteq_cons.
  subst r. by apply submseteq_skip.
Qed.

Lemma spawned_submseteq tags st : spawned tags st -> map gtag (gos st) ⊆+ tags.
Proof.
  unfold spawned. destruct (main st); intros <-; try done.
  by apply submseteq_inserts_r.
Qed.

Lemma unsent_or_all_sent (l : list goroutine) :
  Forall (fun g => unsent g = false) l \/
  exists k g, l !! k = Some g /\ unsent g = true.
Proof.
  induction l as [|g l [IH|(k & g' & Hk & Hu)]].
  - by left.
  - destruct (unsent g) eqn:Hg.
    + right. by exists 0, g.
    + left. by constructor.
  - right. by exists (S k), g'.
Qed.

Section Completion.

Variable sort_Sort : (Image -> Image -> bool) -> list Image -> list Image.
Variable remote : Remote.
Variable repository : Repository.
Variable tags : list string.
Variable tr0 : list event.

Local Abbreviation Inv' := (Inv sort_Sort remote repository tags tr0).
Local Abbreviation step' := (step sort_Sort remote repository (length tags)).
Local Abbreviation run' := (run sort_Sort remote repository (length tags)).

(** From every state of an execution, the caller can be brought to
    return and every goroutine to its end. *)
Lemma can_finish n : forall st tr,
  fuel (length tags) st <= n -> Inv' st tr ->
  exists sched st' tr' ret,
    run' sched st = Some st' /\ Inv' st' tr' /\ returned st' = Some ret /\
    Forall (fun g => unsent g = false) (gos st').
Proof.
  induction n as [|n IH]; intros st tr Hn HI.
  - destruct (returned st) as [ret|] eqn:Hret.
    + destruct (unsent_or_all_sent (gos st)) as [Hall|(k & g & Hk & Hu)].
      * by exists [], st, tr, ret.
      * destruct (go_enabled _ _ _ _ _ _ _ _ _ HI Hk Hu) as [st1 Hs].
        pose proof (step_fuel _ _ _ _ _ _ _ Hs). lia.
    + destruct (progress _ _ _ _ _ _ _ HI Hret) as (c & st1 & Hs).
      pose proof (step_fuel _ _ _ _ _ _ _ Hs). lia.
  - assert (forall c st1, step' c st = Some st1 ->
              exists sched st' tr' ret,
                run' sched st = Some st' /\ Inv' st' tr' /\ returned st' = Some ret /\
                Forall (fun g => unsent g = false) (gos st')) as Hnext.
    { intros c st1 Hs. pose proof (step_fuel _ _ _ _ _ _ _ Hs).
      destruct (Inv_step _ _ _ _ _ _ _ _ _ HI Hs) as [evs HI1].
      destruct (IH st1 _ ltac:(lia) HI1) as (sched & st' & tr' & ret & Hrun & ?).
      exists (c :: sched), st', tr', ret. simpl. by rewrite Hs. }
    destruct (returned st) as [ret|] eqn:Hret.
    + destruct (unsent_or_all_sent (gos st)) as [Hall|(k & g & Hk & Hu)].
      * by exists [], st, tr, ret.
      * destruct (go_enabled _ _ _ _ _ _ _ _ _ HI Hk Hu) as [st1 Hs]. eauto.
    + destruct (progress _ _ _ _ _ _ _ HI Hret) as (c & st1 & Hs). eauto.
Qed.

(** After a successful return nobody can move any more. *)
Lemma success_is_final st tr images c :
  Inv' st tr -> returned st = Some (Some images, None) -> step' c st = None.
Proof.
  intros HI Hret.
  destruct (Inv_done _ _ _ _ _ _ _ _ HI Hret)
    as (_ & _ & _ & Ho & _ & _ & _ & _ & Htags).
  destruct Ho as (_ & Hlen & _).
  destruct (Inv_all_received _ _ _ _ _ _ _ HI Htags Hlen) as (_ & Hall & _).
  unfold returned in Hret. destruct c as [|k]; simpl.
  - unfold step_main. by destruct (main st).
  - unfold step_go. destruct (gos st !! k) as [g|] eqn:Hk; [|done].
    rewrite Forall_forall in Hall.
    specialize (Hall g (list_elem_of_lookup_2 _ _ _ Hk)).
    by destruct g.
Qed.

(** A goroutine's step leaves the caller where it is, and the caller
    does not move after its return. *)
Lemma returned_step c st st' ret :
  step' c st = Some st' -> returned st = Some ret -> returned st' = Some ret.
Proof.
  unfold returned. destruct c as [|k]; simpl.
  - unfold step_main. by destruct (main st).
  - unfold step_go.
    destruct (gos st !! k) as [g|]; [|discriminate].
    destruct g as [t|t|t im x|t r|t r]; try discriminate.
    + by intros [= <-].
    + by destruct (Manifest remote repository t) as [im [x|]]; intros [= <-].
    + by intros [= <-].
    + destruct (decide (length (fetched st) < length tags)); [|discriminate].
      by intros [= <-].
Qed.

Lemma returned_run sched : forall st st' ret,
  run' sched st = Some st' -> returned st = Some ret -> returned st' = Some ret.
Proof.
  induction sched as [|c sched IH]; intros st st' ret Hrun Hret; simpl in Hrun.
  - by injection Hrun as <-.
  - destruct (step' c st) as [st1|] eqn:Hs; [|discriminate].
    eauto using returned_step.
Qed.

(** The step in which the caller returns is the deferred [Cancel]. *)
Lemma returning_step c st st' ret :
  step' c st = Some st' -> returned st = None -> returned st' = Some ret ->
  trace st' = trace st ++ [EvCancel].
Proof.
  unfold returned. destruct c as [|k]; simpl.
  - unfold step_main.
    destruct (main st) as [[|t rest]|i ims|ret0|ret0]; try discriminate.
    + by intros [= <-].
    + by intros [= <-].
    + destruct (decide (i < length tags)).
      * destruct (fetched st) as [|res q]; [discriminate|].
        by destruct (err res); intros [= <-].
      * by intros [= <-].
    + by intros [= <-].
  - intros Hs Hnot Hret.
    assert (forall ret0, returned st = Some ret0 -> False) as Hno
      by (unfold returned; rewrite Hnot; discriminate).
    unfold step_go in Hs.
    destruct (gos st !! k) as [g|]; [|discriminate].
    destruct g as [t|t|t im x|t r|t r]; try discriminate.
    + injection Hs as <-. simpl in Hret. by rewrite Hnot in Hret.
    + destruct (Manifest remote repository t) as [im [x|]];
        injection Hs as <-; simpl in Hret; by rewrite Hnot in Hret.
    + injection Hs as <-. simpl in Hret. by rewrite Hnot in Hret.
    + destruct (decide (length (fetched st) < length tags)); [|discriminate].
      injection Hs as <-. simpl in Hret. by rewrite Hnot in Hret.
Qed.

(** So the state of a successful return is the one right after the
    deferred [Cancel]. *)
Lemma success_ends_with_Cancel sched : forall st st' tr images,
  Inv' st tr -> returned st = None ->
  run' sched st = Some st' -> returned st' = Some (Some images, None) ->
  exists tr', trace st' = tr' ++ [EvCancel].
Proof.
  induction sched as [|c sched IH]; intros st st' tr images HI Hnot Hrun Hret;
    simpl in Hrun.
  - injection Hrun as <-. congruence.
  - destruct (step' c st) as [st1|] eqn:Hs; [|discriminate].
    destruct (Inv_step _ _ _ _ _ _ _ _ _ HI Hs) as [evs HI1].
    destruct (returned st1) as [ret1|] eqn:Hret1; [|by eapply IH].
    pose proof (returning_step _ _ _ _ Hs Hnot Hret1) as Hlast.
    destruct sched as [|c' sched]; simpl in Hrun.
    + injection Hrun as <-. eauto.
    + (* a later step would keep the returned value, but [st1] is final *)
      destruct (step' c' st1) as [st2|] eqn:Hs2; [|discriminate].
      assert (returned st' = Some ret1) as Hsame
        by (apply (returned_run sched _ _ _ Hrun), (returned_step _ _ _ _ Hs2 Hret1)).
      rewrite Hret in Hsame. injection Hsame as <-.
      by rewrite (success_is_final _ _ _ c' HI1 Hret1) in Hs2.
Qed.

End Completion.

(** ** More of [byCreatedDesc] *)

Lemma lex_lt_irrefl s : ~ lex_lt s s.
Proof.
  induction s as [|c s IH]; inversion 1 as [| ? ? ? ? Hlt | ? ? ? Htl]; subst;
    [lia|by apply IH].
Qed.

Lemma lex_lt_trans s1 s2 : lex_lt s1 s2 -> forall s3, lex_lt s2 s3 -> lex_lt s1 s3.
Proof.
  induction 1 as [c s | c d s s' Hcd | c s s' Hs IH]; intros s3 H23;
    inversion H23 as [| ? ? ? ? Hlt | ? ? ? Htl]; subst.
  - constructor.
  - constructor.
  - apply lex_lt_head. lia.
  - by apply lex_lt_head.
  - by apply lex_lt_head.
  - apply lex_lt_tail. by apply IH.
Qed.

Lemma lex_lt_trichotomy s : forall s', lex_lt s s' \/ s = s' \/ lex_lt s' s.
Proof.
  induction s as [|c s IH]; intros [|d s'].
  - right. by left.
  - left. constructor.
  - right. right. constructor.
  - destruct (lt_eq_lt_dec (nat_of_ascii c) (nat_of_ascii d)) as [[Hlt|Heq]|Hgt].
    + left. by apply lex_lt_head.
    + assert (c = d) as ->
        by (rewrite <- (ascii_nat_embedding c), <- (ascii_nat_embedding d); by rewrite Heq).
      destruct (IH s') as [H|[->|H]].
      * left. by apply lex_lt_tail.
      * right. by left.
      * right. right. by apply lex_lt_tail.
    + right. right. by apply lex_lt_head.
Qed.

Lemma String_ltb_false_lex s s' : String.ltb s s' = false <-> ~ lex_lt s s'.
Proof.
  rewrite <- String_ltb_lex. by destruct (String.ltb s s').
Qed.

(** [Less] is transitive on all images, with or without timestamps. *)
Theorem less_trans (a b c : Image) :
  less a b = true -> less b c = true -> less a c = true.
Proof.
  unfold less, Time_Equal, Time_After.
  destruct (CreatedAt a) as [ta|]; [|done].
  destruct (CreatedAt b) as [tb|]; [|discriminate].
  destruct (CreatedAt c) as [tc|]; [|discriminate].
  destruct (Z.eqb_spec ta tb) as [->|Hab], (Z.eqb_spec tb tc) as [->|Hbc].
  - rewrite !String_ltb_lex. intros H1 H2. by apply (lex_lt_trans _ _ H1).
  - by intros _.
  - destruct (Z.eqb_spec ta tc); [done|]. by intros ? _.
  - rewrite !Z.ltb_lt. intros H1 H2.
    destruct (Z.eqb_spec ta tc); [lia|]. apply Z.ltb_lt. lia.
Qed.

(** On images that carry a timestamp [Less] is a strict order, and two
    images neither of which is [Less] than the other have the same
    timestamp and the same full name. *)
Theorem less_strict_on_timestamped (a b : Image) (ta tb : Time) :
  CreatedAt a = Some ta -> CreatedAt b = Some tb ->
  less a a = false /\
  (less a b = true -> less b a = false) /\
  (less a b = false -> less b a = false ->
   ta = tb /\ Image_String a = Image_String b).
Proof.
  intros Ha Hb. unfold less, Time_Equal, Time_After. rewrite Ha, Hb.
  rewrite Z.eqb_refl. split; [|split].
  - apply String_ltb_false_lex, lex_lt_irrefl.
  - destruct (Z.eqb_spec ta tb) as [->|Hne].
    + rewrite Z.eqb_refl, String_ltb_lex, String_ltb_false_lex.
      intros H1 H2. exact (lex_lt_irrefl _ (lex_lt_trans _ _ H1 _ H2)).
    + destruct (Z.eqb_spec tb ta); [congruence|].
      rewrite Z.ltb_lt, Z.ltb_ge. lia.
  - destruct (Z.eqb_spec ta tb) as [->|Hne].
    + rewrite Z.eqb_refl, !String_ltb_false_lex. intros H1 H2. split; [done|].
      by destruct (lex_lt_trichotomy (Image_String a) (Image_String b)) as [?|[?|?]].
    + destruct (Z.eqb_spec tb ta); [congruence|].
      rewrite !Z.ltb_ge. lia.
Qed.

Lemma insert_swap_perm {A} (l : list A) j x b :
  l !! j = Some b -> b :: <[j := x]> l ≡ₚ x :: l.
Proof.
  revert j. induction l as [|y l IH]; intros [|j] Hj; simplify_eq/=.
  - apply Permutation_swap.
  - rewrite Permutation_swap, (IH j Hj). apply Permutation_swap.
Qed.

Lemma swap_inserts_perm {A} (l : list A) : forall i j a b,
  l !! i = Some a -> l !! j = Some b -> <[i := b]> (<[j := a]> l) ≡ₚ l.
Proof.
  induction l as [|y l IH]; intros [|i] [|j] a b Hi Hj; simplify_eq/=.
  - done.
  - by apply insert_swap_perm.
  - by apply insert_swap_perm.
  - by rewrite (IH i j a b).
Qed.

(** [Swap(i, j)] with both indices in range gives a slice of the same
    length holding the same elements, with those at [i] and [j]
    exchanged and every other index untouched; swapping again restores
    the slice. *)
Theorem Swap_exchanges (images : list Image) (i j : nat) :
  i < Len images -> j < Len images ->
  exists images',
    Swap images i j = Some images' /\
    Len images' = Len images /\
    images' ≡ₚ images /\
    images' !! i = images !! j /\
    images' !! j = images !! i /\
    (forall k, k <> i -> k <> j -> images' !! k = images !! k) /\
    Swap images' i j = Some images.
Proof.
  unfold Len, Swap. intros Hi Hj.
  destruct (lookup_lt_is_Some_2 images i Hi) as [a Ha].
  destruct (lookup_lt_is_Some_2 images j Hj) as [b Hb].
  rewrite Ha, Hb. eexists. split; [done|].
  assert (forall k, <[i := b]> (<[j := a]> images) !! k =
            if decide (k = i) then Some b else
            if decide (k = j) then Some a else images !! k) as Hlook.
  { intros k. rewrite !list_lookup_insert, !length_insert.
    repeat case_decide; try done; intuition (subst; first [lia|congruence]). }
  split; [by rewrite !length_insert|].
  split; [by apply swap_inserts_perm|].
  repeat split.
  - rewrite Hlook. by case_decide.
  - rewrite Hlook. repeat case_decide; congruence.
  - intros k Hki Hkj. rewrite Hlook. by repeat case_decide.
  - rewrite !Hlook. rewrite decide_True by done.
    assert (Some (if decide (j = i) then b else a) =
            (if decide (j = i) then Some b else if decide (j = j) then Some a
             else images !! j)) as <- by (repeat case_decide; congruence).
    f_equal. apply list_eq. intros k.
    rewrite !list_lookup_insert, !length_insert.
    repeat case_decide; subst; try done; try congruence;
      intuition (subst; first [lia|congruence]).
Qed.

(** ** Executions of [GetRepository]: liveness, fetches, log, release *)

Section Executions.

Context {Metrics : Type}.
Variable NewInstrumentedRemote : Remote -> Metrics -> Remote.
Variable sort_Sort : (Image -> Image -> bool) -> list Image -> list Image.

Local Abbreviation GetRepository' := (GetRepository NewInstrumentedRemote sort_Sort).
Local Abbreviation instrumented reg rem0 :=
  (NewInstrumentedRemote rem0 (reg_Metrics reg)).
Local Abbreviation entry img := [EvCreateFor (Host img); EvTags img].
Local Abbreviation listing_Inv' := (listing_Inv NewInstrumentedRemote sort_Sort).
Local Abbreviation GetRepository_listing' :=
  (GetRepository_listing NewInstrumentedRemote sort_Sort).

(** As long as [GetRepository] has not returned, the caller or one of
    the goroutines can take a step: the call cannot deadlock. *)
Theorem never_deadlocks (reg : registry) img sched st :
  GetRepository' reg img sched = Some st -> returned st = None ->
  exists c st', GetRepository' reg img (sched ++ [c]) = Some st'.
Proof.
  unfold GetRepository, newRemote.
  destruct (CreateFor (factory reg) (Host img)) as [rem0 [e|]]; simpl.
  - intros [= <-]. discriminate.
  - destruct (Tags (instrumented reg rem0) img) as [tags [e|]].
    + intros [= <-]. discriminate.
    + unfold tagsToRepository. intros Hrun Hret.
      destruct (Inv_run _ _ _ _ _ _ _ _ _ (Inv_enter _ _ _ _ _) Hrun) as [evs HI].
      destruct (progress _ _ _ _ _ _ _ HI Hret) as (c & st' & Hs).
      exists c, st'. rewrite run_app, Hrun. simpl. by rewrite Hs.
Qed.

(** A goroutine that has not sent its result can always take its next
    step, before and after the caller's return: the channel never holds
    more than [len(tags)] results and a send always finds room. *)
Theorem goroutines_never_stuck (reg : registry) img sched st k g :
  GetRepository' reg img sched = Some st ->
  gos st !! k = Some g -> unsent g = true ->
  length (fetched st) < length (gos st) /\
  exists st', GetRepository' reg img (sched ++ [Go k]) = Some st'.
Proof.
  unfold GetRepository, newRemote.
  destruct (CreateFor (factory reg) (Host img)) as [rem0 [e|]]; simpl.
  - intros [= <-]. discriminate.
  - destruct (Tags (instrumented reg rem0) img) as [tags [e|]].
    + intros [= <-]. discriminate.
    + unfold tagsToRepository. intros Hrun Hk Hu.
      destruct (Inv_run _ _ _ _ _ _ _ _ _ (Inv_enter _ _ _ _ _) Hrun) as [evs HI].
      split.
      * pose proof (Permutation_length (inv_chan _ _ _ _ _ _ _ HI)) as Hlen.
        rewrite length_app in Hlen.
        pose proof (sent_length_lt _ _ _ Hk Hu). lia.
      * destruct (go_enabled _ _ _ _ _ _ _ _ _ HI Hk Hu) as [st' Hs].
        exists st'. rewrite run_app, Hrun. simpl in *. by rewrite Hs.
Qed.

(** Every execution of a listing can be continued until the caller has
    returned and every goroutine has ended.  By then [Manifest] has been
    called once for each tag, also when the call failed early, and every
    failed fetch has its log line. *)
Theorem all_goroutines_finish (reg : registry) img rem0 tags sched st :
  CreateFor (factory reg) (Host img) = (rem0, None) ->
  Tags (instrumented reg rem0) img = (tags, None) ->
  GetRepository' reg img sched = Some st ->
  exists sched' st' ret,
    GetRepository' reg img (sched ++ sched') = Some st' /\
    returned st' = Some ret /\
    length (gos st') = length tags /\
    Forall (fun g => unsent g = false) (gos st') /\
    manifest_calls (trace st') ≡ₚ tags /\
    logged (trace st') ≡ₚ tag_errors (instrumented reg rem0) img tags.
Proof.
  intros HC HT Hrun.
  assert (forall s, GetRepository' reg img s =
            run sort_Sort (instrumented reg rem0) img (length tags) s
                (enter (entry img) tags)) as Hlist
    by (intros s; by rewrite (GetRepository_listing' _ _ _ _ _ HC HT)).
  rewrite Hlist in Hrun.
  destruct (Inv_run _ _ _ _ _ _ _ _ _ (Inv_enter _ _ _ _ _) Hrun) as [evs HI].
  destruct (can_finish _ _ _ _ _ _ _ _ (le_n _) HI)
    as (sched' & st' & tr' & ret & Hrun' & HI' & Hret & Hall).
  assert (run sort_Sort (instrumented reg rem0) img (length tags) (sched ++ sched')
              (enter (entry img) tags) = Some st') as Hfull
    by (by rewrite run_app, Hrun).
  destruct (Inv_done _ _ _ _ _ _ _ _ HI' Hret)
    as (_ & _ & _ & _ & _ & _ & _ & _ & Htags).
  exists sched', st', ret. rewrite Hlist. repeat split; auto.
  - rewrite <- Htags. by rewrite length_map.
  - rewrite (inv_trace _ _ _ _ _ _ _ HI'), manifest_calls_app. simpl.
    rewrite (inv_calls _ _ _ _ _ _ _ HI'), (all_sent_called _ Hall). by rewrite Htags.
  - rewrite (logged_run _ _ _ _ _ [] _ _ Hfull) by done. simpl.
    rewrite (logged_by_all _ _ _ Hall (inv_gos _ _ _ _ _ _ _ HI')). by rewrite Htags.
Qed.

(** At no point of a listing has [Manifest] been called more often than
    the tags ask for: the calls issued so far are part of the tags,
    counted with their repetitions. *)
Theorem at_most_one_fetch_per_tag (reg : registry) img rem0 tags sched st :
  CreateFor (factory reg) (Host img) = (rem0, None) ->
  Tags (instrumented reg rem0) img = (tags, None) ->
  GetRepository' reg img sched = Some st ->
  manifest_calls (trace st) ⊆+ tags.
Proof.
  intros HC HT Hrun.
  destruct (listing_Inv' _ _ _ _ _ _ HC HT Hrun) as (tr & Htr & HI).
  rewrite Htr, manifest_calls_app. simpl.
  rewrite (inv_calls _ _ _ _ _ _ _ HI), called_submseteq.
  apply spawned_submseteq, (inv_tags _ _ _ _ _ _ _ HI).
Qed.

(** The results the caller has taken from the channel, together with
    those still waiting in it, are answers of the remote for the tags,
    none of them counted twice. *)
Theorem results_consumed_once (reg : registry) img rem0 tags sched st :
  CreateFor (factory reg) (Host img) = (rem0, None) ->
  Tags (instrumented reg rem0) img = (tags, None) ->
  GetRepository' reg img sched = Some st ->
  received (trace st) ++ fetched st ⊆+
    map (fetch_result (instrumented reg rem0) img) tags.
Proof.
  intros HC HT Hrun.
  destruct (listing_Inv' _ _ _ _ _ _ HC HT Hrun) as (tr & Htr & HI).
  rewrite Htr, received_app. simpl.
  rewrite (inv_chan _ _ _ _ _ _ _ HI).
  rewrite (sent_submseteq _ _ _ (inv_gos _ _ _ _ _ _ _ HI)).
  apply fmap_submseteq, spawned_submseteq, (inv_tags _ _ _ _ _ _ _ HI).
Qed.

(** Log lines are written for failed fetches only, at most one for a
    failing tag; a failed result is logged before it is sent, so the
    error of every failed result in the channel or taken from it, and
    with it the error [GetRepository] returns from a listing, is in the
    log. *)
Theorem failures_logged (reg : registry) img rem0 tags sched st :
  CreateFor (factory reg) (Host img) = (rem0, None) ->
  Tags (instrumented reg rem0) img = (tags, None) ->
  GetRepository' reg img sched = Some st ->
  logged (trace st) ⊆+ tag_errors (instrumented reg rem0) img tags /\
  (forall r e, r ∈ received (trace st) ++ fetched st -> err r = Some e ->
     e ∈ logged (trace st)) /\
  (forall images e, returned st = Some (images, Some e) -> e ∈ logged (trace st)).
Proof.
  intros HC HT Hrun.
  destruct (listing_Inv' _ _ _ _ _ _ HC HT Hrun) as (tr & Htr & HI).
  rewrite (GetRepository_listing' _ _ _ _ _ HC HT) in Hrun.
  assert (logged (trace st) ≡ₚ flat_map logged_by (gos st)) as Hlog
    by (by rewrite (logged_run _ _ _ _ _ [] _ _ Hrun)).
  assert (forall r e, r ∈ received (trace st) ++ fetched st -> err r = Some e ->
            e ∈ logged (trace st)) as Hsent.
  { intros r e Hr He. rewrite Htr, received_app in Hr. simpl in Hr.
    rewrite (inv_chan _ _ _ _ _ _ _ HI) in Hr.
    destruct (sent_elem_of _ _ Hr) as [t Ht].
    rewrite Hlog. apply (flat_map_elem_of _ _ _ _ Ht). simpl. rewrite He.
    by apply list_elem_of_singleton. }
  split; [|split; [done|]].
  - rewrite Hlog, (logged_by_submseteq _ _ _ (inv_gos _ _ _ _ _ _ _ HI)).
    pose proof (inv_tags _ _ _ _ _ _ _ HI) as Htags. unfold spawned in Htags.
    destruct (main st); subst tags; try done.
    rewrite tag_errors_app. by apply submseteq_inserts_r.
  - intros images e Hret.
    destruct (Inv_done _ _ _ _ _ _ _ _ HI Hret)
      as (_ & _ & _ & Ho & _ & _ & _ & _ & _).
    destruct images as [images|]; simpl in Ho; [done|].
    destruct Ho as (oks & r & Hrs & _ & He & _).
    apply (Hsent r e); [|done].
    rewrite Htr, received_app. simpl. rewrite Hrs.
    apply elem_of_app. left. apply elem_of_app. right. by apply list_elem_of_singleton.
Qed.

(** When a listing succeeds, the deferred [Cancel] is the last event of
    the call: all [len(tags)] calls of [Manifest] come before it, and
    after the return nobody moves any more. *)
Theorem success_release_last (reg : registry) img rem0 tags sched st images :
  CreateFor (factory reg) (Host img) = (rem0, None) ->
  Tags (instrumented reg rem0) img = (tags, None) ->
  GetRepository' reg img sched = Some st ->
  returned st = Some (Some images, None) ->
  (exists tr, trace st = tr ++ [EvCancel] /\ cancels tr = 0 /\
     manifest_calls tr ≡ₚ tags) /\
  (forall c, GetRepository' reg img (sched ++ [c]) = None).
Proof.
  intros HC HT Hrun Hret.
  destruct (listing_Inv' _ _ _ _ _ _ HC HT Hrun) as (tr & Htr & HI).
  destruct (Inv_done _ _ _ _ _ _ _ _ HI Hret)
    as (_ & _ & _ & Ho & _ & _ & _ & Hc & Htags).
  destruct Ho as (_ & Hlen & _).
  destruct (Inv_all_received _ _ _ _ _ _ _ HI Htags Hlen) as (_ & _ & _ & Hcalls).
  split.
  - rewrite (GetRepository_listing' _ _ _ _ _ HC HT) in Hrun.
    destruct (success_ends_with_Cancel _ _ _ _ _ _ _ _ _ _
                (Inv_enter _ _ _ _ _) eq_refl Hrun Hret) as [tr' Hlast].
    exists tr'. split; [done|].
    assert (cancels (trace st) = 1) as Hone by (by rewrite Htr, cancels_app, Hc).
    assert (manifest_calls (trace st) ≡ₚ tags) as Hm
      by (by rewrite Htr, manifest_calls_app).
    rewrite Hlast, cancels_app in Hone. rewrite Hlast, manifest_calls_app in Hm.
    simpl in *. rewrite app_nil_r in Hm. split; [|done].
    rewrite cancels_cons in Hone. simpl in Hone. unfold cancels in *. simpl in Hone. lia.
  - intros c. rewrite (GetRepository_listing' _ _ _ _ (sched ++ [c]) HC HT).
    rewrite (GetRepository_listing' _ _ _ _ sched HC HT) in Hrun.
    unfold tagsToRepository in *. rewrite run_app, Hrun. simpl.
    by rewrite (success_is_final _ _ _ _ _ _ _ _ c HI Hret).
Qed.

End Executions.

(** ** These properties at concrete inputs *)

Lemma never_deadlocks_witness :
  exists st,
    GetRepository0 (registry_of remote_ab) helloworld [Main; Main; Main] = Some st /\
    returned st = None /\ fetched st = [] /\
    exists c st',
      GetRepository0 (registry_of remote_ab) helloworld ([Main; Main; Main] ++ [c])
        = Some st'.
Proof.
  eexists. split; [vm_compute; reflexivity|].
  split; [reflexivity|]. split; [reflexivity|].
  exact (never_deadlocks plainInstrumented (@insertionSort Image)
           (registry_of remote_ab) helloworld [Main; Main; Main] _
           ltac:(vm_compute; reflexivity) eq_refl).
Defined.

Lemma goroutines_never_stuck_witness :
  exists st,
    GetRepository0 (registry_of remote_ab) helloworld sched_first_only = Some st /\
    returned st = Some (None, Some "boom"%string) /\
    gos st !! 1 = Some (GCall "b") /\
    length (fetched st) < length (gos st) /\
    exists st',
      GetRepository0 (registry_of remote_ab) helloworld (sched_first_only ++ [Go 1])
        = Some st'.
Proof.
  eexists. split; [vm_compute; reflexivity|].
  split; [reflexivity|]. split; [reflexivity|].
  exact (goroutines_never_stuck plainInstrumented (@insertionSort Image)
           (registry_of remote_ab) helloworld sched_first_only _ 1 (GCall "b")
           ltac:(vm_compute; reflexivity) eq_refl eq_refl).
Defined.

Lemma all_goroutines_finish_witness :
  exists st,
    GetRepository0 (registry_of remote_ab) helloworld sched_first_only = Some st /\
    exists sched' st' ret,
      GetRepository0 (registry_of remote_ab) helloworld (sched_first_only ++ sched')
        = Some st' /\
      returned st' = Some ret /\
      length (gos st') = 2 /\
      Forall (fun g => unsent g = false) (gos st') /\
      manifest_calls (trace st') ≡ₚ ["a"; "b"]%string /\
      logged (trace st') ≡ₚ tag_errors remote_ab helloworld ["a"; "b"]%string.
Proof.
  eexists. split; [vm_compute; reflexivity|].
  exact (all_goroutines_finish plainInstrumented (@insertionSort Image)
           (registry_of remote_ab) helloworld remote_ab ["a"; "b"]%string
           sched_first_only _ eq_refl eq_refl ltac:(vm_compute; reflexivity)).
Defined.

Lemma at_most_one_fetch_per_tag_witness :
  exists st,
    GetRepository0 (registry_of remote_ab) helloworld sched_second_in_flight = Some st /\
    manifest_calls (trace st) ⊆+ ["a"; "b"]%string.
Proof.
  eexists. split; [vm_compute; reflexivity|].
  exact (at_most_one_fetch_per_tag plainInstrumented (@insertionSort Image)
           (registry_of remote_ab) helloworld remote_ab ["a"; "b"]%string
           sched_second_in_flight _ eq_refl eq_refl ltac:(vm_compute; reflexivity)).
Defined.

Lemma results_consumed_once_witness :
  exists st,
    GetRepository0 (registry_of remote_bad2) helloworld sched_second_first = Some st /\
    received (trace st) ++ fetched st ⊆+
      map (fetch_result remote_bad2 helloworld) ["a"; "b"]%string.
Proof.
  eexists. split; [vm_compute; reflexivity|].
  exact (results_consumed_once plainInstrumented (@insertionSort Image)
           (registry_of remote_bad2) helloworld remote_bad2 ["a"; "b"]%string
           sched_second_first _ eq_refl eq_refl ltac:(vm_compute; reflexivity)).
Defined.

Lemma failures_logged_witness :
  exists st,
    GetRepository0 (registry_of remote_bad2) helloworld sched_second_first = Some st /\
    returned st = Some (None, Some "no b"%string) /\
    logged (trace st) ⊆+ tag_errors remote_bad2 helloworld ["a"; "b"]%string /\
    (forall r e, r ∈ received (trace st) ++ fetched st -> err r = Some e ->
       e ∈ logged (trace st)) /\
    (forall images e, returned st = Some (images, Some e) -> e ∈ logged (trace st)).
Proof.
  eexists. split; [vm_compute; reflexivity|]. split; [reflexivity|].
  exact (failures_logged plainInstrumented (@insertionSort Image)
           (registry_of remote_bad2) helloworld remote_bad2 ["a"; "b"]%string
           sched_second_first _ eq_refl eq_refl ltac:(vm_compute; reflexivity)).
Defined.

Lemma success_release_last_witness :
  exists st images,
    GetRepository0 (registry_of remote_ok) helloworld sched_reverse3 = Some st /\
    returned st = Some (Some images, None) /\
    (exists tr, trace st = tr ++ [EvCancel] /\ cancels tr = 0 /\
       manifest_calls tr ≡ₚ ["v1"; "v2"; "v3"]%string) /\
    (forall c,
       GetRepository0 (registry_of remote_ok) helloworld (sched_reverse3 ++ [c]) = None).
Proof.
  do 2 eexists. split; [vm_compute; reflexivity|]. split; [reflexivity|].
  exact (success_release_last plainInstrumented (@insertionSort Image)
           (registry_of remote_ok) helloworld remote_ok ["v1"; "v2"; "v3"]%string
           sched_reverse3 _ _ eq_refl eq_refl ltac:(vm_compute; reflexivity) eq_refl).
Defined.

Lemma less_trans_witness :
  let a := mkImage "x" (Some 3%Z) in
  let b := mkImage "y" (Some 2%Z) in
  let c := mkImage "z" (Some 2%Z) in
  (less a b = true /\ less b c = true) /\ less a c = true.
Proof.
  simpl. split; [by split|].
  exact (less_trans (mkImage "x" (Some 3%Z)) (mkImage "y" (Some 2%Z))
           (mkImage "z" (Some 2%Z)) eq_refl eq_refl).
Defined.

Lemma less_strict_on_timestamped_witness :
  let a := mkImage "y" (Some 2%Z) in
  let b := mkImage "z" (Some 2%Z) in
  (CreatedAt a = Some 2%Z /\ CreatedAt b = Some 2%Z) /\
  less a a = false /\
  (less a b = true -> less b a = false) /\
  (less a b = false -> less b a = false ->
   2%Z = 2%Z /\ Image_String a = Image_String b).
Proof.
  simpl. split; [by split|].
  exact (less_strict_on_timestamped (mkImage "y" (Some 2%Z)) (mkImage "z" (Some 2%Z))
           2%Z 2%Z eq_refl eq_refl).
Defined.

Lemma Swap_exchanges_witness :
  let images := [mkImage "a" None; mkImage "b" (Some 1%Z); mkImage "c" (Some 2%Z)] in
  (0 < Len images /\ 2 < Len images) /\
  exists images',
    Swap images 0 2 = Some images' /\
    Len images' = Len images /\
    images' ≡ₚ images /\
    images' !! 0 = images !! 2 /\
    images' !! 2 = images !! 0 /\
    (forall k, k <> 0 -> k <> 2 -> images' !! k = images !! k) /\
    Swap images' 0 2 = Some images.
Proof.
  assert (0 < 3) as H0 by lia. assert (2 < 3) as H2 by lia.
  split; [by split|].
  exact (Swap_exchanges
           [mkImage "a" None; mkImage "b" (Some 1%Z); mkImage "c" (Some 2%Z)] 0 2 H0 H2).
Defined.
